(** * Travel-rule calculator: requirement extraction, field matching and
      compliance classification

    A shallow embedding of [src/utils/calculatorLogic.ts] (with the tables of
    [src/data/countryConfigs.ts] and the types of [src/types/index.ts]).

    Conventions of the embedding.
    - A JS [number] is an IEEE-754 binary64 value: Rocq's primitive [float].
      [a >= b] is [PrimFloat.leb b a]; it is [false] as soon as one side is NaN.
    - A JS [Set<string>] keeps insertion order, and [Array.from] reads it back
      in that order: it is a duplicate-free [list string] that grows at its end.
    - A JS object used as a dictionary whose iteration order is observed
      ([Object.entries]) is the list of its entries in that order (the
      identifiers [or_group_<n>] are not array indices, so this is insertion
      order); assignment to an existing key keeps the key's position.
      Read-only tables that are only ever looked up are finite maps ([gmap])
      of their own entries.
    - A look-up [obj[key]] follows the prototype chain.  The key of
      [countryConfigs[code]] comes from the caller, and the look-up is
      modelled with the chain: a code that has no entry but names a member of
      [Object.prototype] ([Js.objectPrototype]) finds that member.  The
      dictionaries of OR-groups and of resolutions are keyed by the
      identifiers the extractor makes ([or_group_<n>]), and the equivalence
      table is looked up under the field keys of the rule sets; these
      look-ups range over the own entries, and rule sets whose field keys
      name an inherited member (for which [findSemanticMatches] ends in a
      TypeError) are outside the embedding.
    - The truthiness tests of the source are kept: [if (orGroupMatches[id])]
      holds for a recorded non-empty string only.
    - [throw new Error(message)] is the [Throw] constructor of [Outcome];
      the TypeError the engine raises when a property of [undefined] is read
      is its [TypeError] constructor. *)

From Stdlib Require Import PrimFloat DecimalString.
From Stdlib Require DecimalNat DecimalFacts.
From stdpp Require Import gmap strings list.

Open Scope string_scope.
Open Scope list_scope.

(* ================================================================== *)
(** * Data model ([src/types/index.ts])                                *)
(* ================================================================== *)

Inductive Logic := AND | OR.

#[global] Instance Logic_eq_dec : EqDecision Logic.
Proof. solve_decision. Defined.

Record RequirementGroup := {
  fields : list string;
  logic : Logic
}.

(** Optional members ([?:]) are [option]s; [None] is [undefined]. *)
Record JurisdictionRequirements := {
  requirements : list RequirementGroup;
  recommended_fields : option (list string);
  kyc_required : option bool;
  aml_required : option bool;
  wallet_attribution : option bool
}.

Record ThresholdTiers := {
  below_threshold : JurisdictionRequirements;
  above_threshold : JurisdictionRequirements
}.

Record CountryConfig := {
  currency : string;
  threshold : float;
  individual : ThresholdTiers;
  company : ThresholdTiers
}.

Inductive CustomerType := Individual | Company.
Inductive Direction := OUT | IN.

Record TransactionInput := {
  sumsub_vasp_country : string;
  counterparty_vasp_country : string;
  customer_type : CustomerType;
  transfer_direction : Direction;
  transfer_amount : float
}.

Record FieldMatch := {
  sumsubField : string;
  counterpartyField : string;
  isExactMatch : bool;
  isOrGroupMatch : option bool;
  orGroupId : option string
}.

(** A dictionary whose entries are enumerated: the entries, in order. *)
Abbreviation Obj V := (list (string * V)).

Record FieldAnalysis := {
  missing_fields : list string;
  extra_fields : list string;
  matching_fields : list string;
  sumsub_sends_more : list string;
  counterparty_sends_more : list string;
  field_matches : list FieldMatch;
  or_group_matches : Obj string
}.

Inductive ComplianceStatus :=
  | full_match
  | overcompliance
  | counterparty_may_request_more
  | sender_may_not_provide.

Record RequirementsSummary := {
  required_fields : list string;
  summary_recommended_fields : list string;
  requirement_groups : list RequirementGroup;
  summary_kyc_required : bool;
  summary_aml_required : bool;
  summary_wallet_attribution : bool
}.

Record ComplianceResult := {
  sumsub_requirements : RequirementsSummary;
  counterparty_requirements : RequirementsSummary;
  compliance_status : ComplianceStatus;
  result_currency : string;
  threshold_met : bool;
  converted_amount : float;
  field_analysis : FieldAnalysis
}.

(** What a call produces: an exception or a value, never both.  [Throw] is
    an [Error] the program throws, with its message; [TypeError] is raised by
    the engine (its message is the engine's own). *)
Inductive Outcome (A : Type) :=
  | Throw (message : string)
  | TypeError
  | Return (value : A).
Arguments Throw {A} message.
Arguments TypeError {A}.
Arguments Return {A} value.

(* ================================================================== *)
(** * JavaScript containers                                            *)
(* ================================================================== *)

Module Js.

(** [Set<string>]. *)
Abbreviation StrSet := (list string).

Definition has (s : StrSet) (x : string) : bool := bool_decide (x ∈ s).

Definition add (s : StrSet) (x : string) : StrSet :=
  if has s x then s else s ++ [x].

(** [new Set(array)] *)
Definition newSet (l : list string) : StrSet := fold_left add l [].

(** [Array.prototype.includes] on strings. *)
Definition includes (l : list string) (x : string) : bool :=
  bool_decide (x ∈ l).

(** [obj[key]] on a dictionary: [None] is [undefined]. *)
Fixpoint get {V} (o : Obj V) (key : string) : option V :=
  match o with
  | [] => None
  | (k, v) :: rest => if decide (k = key) then Some v else get rest key
  end.

(** [obj[key] = value] *)
Fixpoint set {V} (o : Obj V) (key : string) (value : V) : Obj V :=
  match o with
  | [] => [(key, value)]
  | (k, v) :: rest =>
      if decide (k = key) then (k, value) :: rest
      else (k, v) :: set rest key value
  end.

(** Truthiness of [obj[key]] for a dictionary of strings: [undefined] and
    the empty string are falsy. *)
Definition truthy (o : option string) : bool :=
  match o with
  | Some s => negb (bool_decide (s = ""))
  | None => false
  end.

(** [`${n}`] for a non-negative integer counter. *)
Definition numberToString (n : nat) : string :=
  NilZero.string_of_uint (Nat.to_uint n).

(** The members every object inherits from [Object.prototype].  Each is a
    function, except [__proto__], which reads as the prototype object
    itself: all are truthy, and none has a property [individual] or
    [company]. *)
Definition objectPrototype : list string :=
  ["constructor"; "__proto__"; "hasOwnProperty"; "isPrototypeOf";
   "propertyIsEnumerable"; "toLocaleString"; "toString"; "valueOf";
   "__defineGetter__"; "__defineSetter__"; "__lookupGetter__";
   "__lookupSetter__"].

(** Truthiness of [table[key]] for a table of objects: an own entry and an
    inherited member are truthy, anything else is [undefined]. *)
Definition truthyMember {V} (table : gmap string V) (key : string) : bool :=
  bool_decide (is_Some (table !! key)) || includes objectPrototype key.

End Js.

(* ================================================================== *)
(** * Field extraction ([extractRequiredFieldsWithOrLogic])            *)
(* ================================================================== *)

Record Extracted := {
  requiredFields : list string;
  orGroups : Obj (list string)
}.

(** The three locals the [forEach] callback updates. *)
Record ExtractState := {
  ex_requiredFields : Js.StrSet;
  ex_orGroups : Obj (list string);
  ex_orGroupCounter : nat
}.

Definition extractStep (st : ExtractState) (group : RequirementGroup)
  : ExtractState :=
  match logic group with
  | AND =>
      {| ex_requiredFields := fold_left Js.add (fields group) (ex_requiredFields st);
         ex_orGroups := ex_orGroups st;
         ex_orGroupCounter := ex_orGroupCounter st |}
  | OR =>
      let groupId := "or_group_" +:+ Js.numberToString (ex_orGroupCounter st) in
      {| ex_requiredFields := ex_requiredFields st;
         ex_orGroups := Js.set (ex_orGroups st) groupId (fields group);
         ex_orGroupCounter := S (ex_orGroupCounter st) |}
  end.

Definition extractRequiredFieldsWithOrLogic
  (reqs : list RequirementGroup) : Extracted :=
  let st := fold_left extractStep reqs
              {| ex_requiredFields := [];
                 ex_orGroups := [];
                 ex_orGroupCounter := 0 |} in
  {| requiredFields := ex_requiredFields st;
     orGroups := ex_orGroups st |}.

(* ================================================================== *)
(** * Helpers for OR-group logic                                       *)
(* ================================================================== *)

Definition isDeuOrGroup (orFields : list string) : bool :=
  bool_decide (length orFields = 4)
  && Js.includes orFields "id_document_number"
  && Js.includes orFields "customer_id"
  && Js.includes orFields "date_of_birth"
  && Js.includes orFields "birthplace".

(** The second argument is not read by the source either. *)
Definition checkDeuCombinationMatch
  (fieldSet : Js.StrSet) (orFields : list string) : bool :=
  Js.has fieldSet "date_of_birth" && Js.has fieldSet "birthplace".

(* ================================================================== *)
(** * Semantic field matching ([findSemanticMatches])                  *)
(* ================================================================== *)

Definition semanticMappings : gmap string (list string) :=
  list_to_map [
    ("full_name", ["company_name"; "registered_name"]);
    ("company_name", ["full_name"; "registered_name"]);
    ("registered_name", ["full_name"; "company_name"]);
    ("residential_address", ["company_address"; "registered_address"]);
    ("company_address", ["residential_address"; "registered_address"]);
    ("registered_address", ["residential_address"; "company_address"]);
    ("id_document_number",
       ["company_registration_number"; "registration_number"; "lei_or_equivalent"]);
    ("company_registration_number",
       ["id_document_number"; "registration_number"; "lei_or_equivalent"]);
    ("registration_number",
       ["id_document_number"; "company_registration_number"; "lei_or_equivalent"]);
    ("lei_or_equivalent",
       ["id_document_number"; "company_registration_number"; "registration_number"]);
    ("customer_id", ["internal_id"; "client_id"; "account_id"]);
    ("internal_id", ["customer_id"; "client_id"; "account_id"]);
    ("client_id", ["customer_id"; "internal_id"; "account_id"]);
    ("account_id", ["customer_id"; "internal_id"; "client_id"]);
    ("date_of_birth", ["birth_date"; "dob"]);
    ("birth_date", ["date_of_birth"; "dob"]);
    ("dob", ["date_of_birth"; "birth_date"]);
    ("birthplace", ["birth_location"; "place_of_birth"]);
    ("birth_location", ["birthplace"; "place_of_birth"]);
    ("place_of_birth", ["birthplace"; "birth_location"]);
    ("phone_number", ["telephone"; "mobile_number"; "contact_number"]);
    ("telephone", ["phone_number"; "mobile_number"; "contact_number"]);
    ("mobile_number", ["phone_number"; "telephone"; "contact_number"]);
    ("contact_number", ["phone_number"; "telephone"; "mobile_number"]);
    ("email_address", ["email"; "electronic_mail"]);
    ("email", ["email_address"; "electronic_mail"]);
    ("electronic_mail", ["email_address"; "email"]);
    ("wallet_address",
       ["crypto_address"; "blockchain_address"; "virtual_asset_address"; "dlt_address"]);
    ("crypto_address",
       ["wallet_address"; "blockchain_address"; "virtual_asset_address"; "dlt_address"]);
    ("blockchain_address",
       ["wallet_address"; "crypto_address"; "virtual_asset_address"; "dlt_address"]);
    ("virtual_asset_address",
       ["wallet_address"; "crypto_address"; "blockchain_address"; "dlt_address"]);
    ("dlt_address",
       ["wallet_address"; "crypto_address"; "blockchain_address"; "virtual_asset_address"]);
    ("nationality", ["citizenship"; "country_of_citizenship"]);
    ("citizenship", ["nationality"; "country_of_citizenship"]);
    ("country_of_citizenship", ["nationality"; "citizenship"]);
    ("occupation", ["profession"; "job_title"; "employment"]);
    ("profession", ["occupation"; "job_title"; "employment"]);
    ("job_title", ["occupation"; "profession"; "employment"]);
    ("employment", ["occupation"; "profession"; "job_title"]);
    ("authorized_representative",
       ["signatory"; "authorized_person"; "legal_representative"]);
    ("signatory",
       ["authorized_representative"; "authorized_person"; "legal_representative"]);
    ("authorized_person",
       ["authorized_representative"; "signatory"; "legal_representative"]);
    ("legal_representative",
       ["authorized_representative"; "signatory"; "authorized_person"])
  ].

Definition semanticMatch (sumsubField possibleMatch : string) : FieldMatch :=
  {| sumsubField := sumsubField;
     counterpartyField := possibleMatch;
     isExactMatch := false;
     isOrGroupMatch := None;
     orGroupId := None |}.

(** [semanticMappings[sumsubField] || []] is read among the table's own
    entries: the matches the call returns for field keys that name no member
    of [Object.prototype]. *)
Definition findSemanticMatches
  (sumsubFields counterpartyFields : list string) : list FieldMatch :=
  flat_map
    (fun sumsubField =>
       let possibleMatches := default [] (semanticMappings !! sumsubField) in
       map (semanticMatch sumsubField)
           (filter (fun possibleMatch =>
                      Js.includes counterpartyFields possibleMatch = true)
                   possibleMatches))
    sumsubFields.

(* ================================================================== *)
(** * Field analysis and matching
      ([analyzeFieldDifferencesWithOrGroups])                          *)
(* ================================================================== *)

(** The four tracking variables of the function. *)
Record MatchState := {
  fieldMatches : list FieldMatch;
  matchedSumsubFields : Js.StrSet;
  matchedCounterpartyFields : Js.StrSet;
  orGroupMatches : Obj string
}.

Definition initialState : MatchState :=
  {| fieldMatches := [];
     matchedSumsubFields := [];
     matchedCounterpartyFields := [];
     orGroupMatches := [] |}.

Definition exactMatch (field : string) : FieldMatch :=
  {| sumsubField := field;
     counterpartyField := field;
     isExactMatch := true;
     isOrGroupMatch := None;
     orGroupId := None |}.

Definition orGroupMatch (field groupId : string) : FieldMatch :=
  {| sumsubField := field;
     counterpartyField := field;
     isExactMatch := true;
     isOrGroupMatch := Some true;
     orGroupId := Some groupId |}.

(** Step 1, the callback of [sumsubFields.forEach]. *)
Definition exactStep (counterpartySet : Js.StrSet)
  (st : MatchState) (sumsubField : string) : MatchState :=
  if Js.has counterpartySet sumsubField then
    {| fieldMatches := fieldMatches st ++ [exactMatch sumsubField];
       matchedSumsubFields := Js.add (matchedSumsubFields st) sumsubField;
       matchedCounterpartyFields :=
         Js.add (matchedCounterpartyFields st) sumsubField;
       orGroupMatches := orGroupMatches st |}
  else st.

(** The body of the [if] inside the [for ... of orFields] loop. *)
Definition recordOrField (st : MatchState) (groupId orField : string)
  : MatchState :=
  {| fieldMatches := fieldMatches st ++ [orGroupMatch orField groupId];
     matchedSumsubFields := Js.add (matchedSumsubFields st) orField;
     matchedCounterpartyFields := Js.add (matchedCounterpartyFields st) orField;
     orGroupMatches := Js.set (orGroupMatches st) groupId orField |}.

(** The body of [if (combinationMatch)]. *)
Definition recordCombination (st : MatchState) (groupId : string)
  : MatchState :=
  {| fieldMatches :=
       (fieldMatches st ++ [orGroupMatch "date_of_birth" groupId])
         ++ [orGroupMatch "birthplace" groupId];
     matchedSumsubFields :=
       Js.add (Js.add (matchedSumsubFields st) "date_of_birth") "birthplace";
     matchedCounterpartyFields :=
       Js.add (Js.add (matchedCounterpartyFields st) "date_of_birth")
              "birthplace";
     orGroupMatches :=
       Js.set (orGroupMatches st) groupId "date_of_birth + birthplace" |}.

(** [for (const orField of orFields) { if (...) { ...; break; } }].
    Steps 2 and 3 both test [matchedSumsubFields]; they differ in the set
    that is consulted ([sumsubSet] in step 2, [counterpartySet] in step 3). *)
Fixpoint scanOrFields (fieldSet : Js.StrSet) (groupId : string)
  (orFields : list string) (st : MatchState) : MatchState :=
  match orFields with
  | [] => st
  | orField :: rest =>
      if Js.has fieldSet orField
         && negb (Js.has (matchedSumsubFields st) orField)
      then recordOrField st groupId orField
      else scanOrFields fieldSet groupId rest st
  end.

(** The callback of [Object.entries(...).forEach] in steps 2 and 3: the two
    callbacks are the same text up to the set that is consulted. *)
Definition orGroupStep (fieldSet : Js.StrSet)
  (st : MatchState) (entry : string * list string) : MatchState :=
  let '(groupId, orFields) := entry in
  if Js.truthy (Js.get (orGroupMatches st) groupId) then st
  else
    let st' := scanOrFields fieldSet groupId orFields st in
    if negb (Js.truthy (Js.get (orGroupMatches st') groupId))
       && isDeuOrGroup orFields
    then
      if checkDeuCombinationMatch fieldSet orFields
      then recordCombination st' groupId
      else st'
    else st'.

(** Step 4, the callback of [semanticMatches.forEach]. *)
Definition semanticStep (st : MatchState) (m : FieldMatch) : MatchState :=
  if negb (Js.has (matchedSumsubFields st) (sumsubField m))
     && negb (Js.has (matchedCounterpartyFields st) (counterpartyField m))
  then
    {| fieldMatches := fieldMatches st ++ [m];
       matchedSumsubFields := Js.add (matchedSumsubFields st) (sumsubField m);
       matchedCounterpartyFields :=
         Js.add (matchedCounterpartyFields st) (counterpartyField m);
       orGroupMatches := orGroupMatches st |}
  else st.

Definition step1 (sumsubFields counterpartyFields : list string) : MatchState :=
  fold_left (exactStep (Js.newSet counterpartyFields)) sumsubFields initialState.

Definition step2 (sumsubFields : list string)
  (counterpartyOrGroups : Obj (list string)) (st : MatchState) : MatchState :=
  fold_left (orGroupStep (Js.newSet sumsubFields)) counterpartyOrGroups st.

Definition step3 (counterpartyFields : list string)
  (sumsubOrGroups : Obj (list string)) (st : MatchState) : MatchState :=
  fold_left (orGroupStep (Js.newSet counterpartyFields)) sumsubOrGroups st.

Definition step4 (sumsubFields counterpartyFields : list string)
  (st : MatchState) : MatchState :=
  fold_left semanticStep
    (findSemanticMatches sumsubFields counterpartyFields) st.

(** [array.filter(field => !set.has(field))] *)
Definition unmatched (l : list string) (matched : Js.StrSet) : list string :=
  filter (fun field => Js.has matched field = false) l.

(** Step 5. *)
Definition step5 (sumsubFields counterpartyFields : list string)
  (transferDirection : Direction) (st : MatchState) : FieldAnalysis :=
  let matching_fields := matchedSumsubFields st in
  match transferDirection with
  | OUT =>
      let missing_fields :=
        unmatched counterpartyFields (matchedCounterpartyFields st) in
      let extra_fields := unmatched sumsubFields (matchedSumsubFields st) in
      {| missing_fields := missing_fields;
         extra_fields := extra_fields;
         matching_fields := matching_fields;
         sumsub_sends_more := extra_fields;
         counterparty_sends_more := [];
         field_matches := fieldMatches st;
         or_group_matches := orGroupMatches st |}
  | IN =>
      let missing_fields := unmatched sumsubFields (matchedSumsubFields st) in
      let extra_fields :=
        unmatched counterpartyFields (matchedCounterpartyFields st) in
      {| missing_fields := missing_fields;
         extra_fields := extra_fields;
         matching_fields := matching_fields;
         sumsub_sends_more := [];
         counterparty_sends_more := extra_fields;
         field_matches := fieldMatches st;
         or_group_matches := orGroupMatches st |}
  end.

Definition analyzeFieldDifferencesWithOrGroups
  (sumsubFields counterpartyFields : list string)
  (sumsubOrGroups counterpartyOrGroups : Obj (list string))
  (transferDirection : Direction) : FieldAnalysis :=
  let st1 := step1 sumsubFields counterpartyFields in
  let st2 := step2 sumsubFields counterpartyOrGroups st1 in
  let st3 := step3 counterpartyFields sumsubOrGroups st2 in
  let st4 := step4 sumsubFields counterpartyFields st3 in
  step5 sumsubFields counterpartyFields transferDirection st4.

(* ================================================================== *)
(** * Compliance status ([determineComplianceStatus])                  *)
(* ================================================================== *)

(** [a.length > b.length] is written [length b < length a]. *)
Definition determineComplianceStatus
  (sumsubFields counterpartyFields : list string)
  (transferDirection : Direction) : ComplianceStatus :=
  let sumsubFieldsSet := Js.newSet sumsubFields in
  let counterpartyFieldsSet := Js.newSet counterpartyFields in
  let sumsubHasAll := forallb (Js.has sumsubFieldsSet) counterpartyFieldsSet in
  let counterpartyHasAll :=
    forallb (Js.has counterpartyFieldsSet) sumsubFieldsSet in
  if sumsubHasAll && counterpartyHasAll
     && bool_decide (length sumsubFields = length counterpartyFields)
  then full_match
  else
    match transferDirection with
    | OUT =>
        if sumsubHasAll then
          if bool_decide (length counterpartyFields < length sumsubFields)
          then overcompliance else full_match
        else counterparty_may_request_more
    | IN =>
        if counterpartyHasAll then
          if bool_decide (length sumsubFields < length counterpartyFields)
          then overcompliance else full_match
        else sender_may_not_provide
    end.

(* ================================================================== *)
(** * Currency conversion ([src/data/countryConfigs.ts])               *)
(* ================================================================== *)

(** [{ ZAR: 18.50, EUR: 0.85, USD: 1.00 }]; the binary64 value nearest to
    0.85 is written out. *)
Definition exchangeRates : gmap string float :=
  list_to_map [("ZAR", 18.5%float);
               ("EUR", 0x1.b333333333333p-1%float);
               ("USD", 1%float)].

(** [amount / exchangeRates[currency]]; dividing by [undefined] gives NaN. *)
Definition convertToUSD (amount : float) (currency : string) : float :=
  match exchangeRates !! currency with
  | Some rate => PrimFloat.div amount rate
  | None => PrimFloat.nan
  end.

(* ================================================================== *)
(** * Main calculation ([calculateCompliance])                         *)
(* ================================================================== *)

Definition tiersOf (config : CountryConfig) (customerType : CustomerType)
  : ThresholdTiers :=
  match customerType with
  | Individual => individual config
  | Company => company config
  end.

(** The jurisdiction table is injected; the table shipped with the
    repository is [shippedCountryConfigs] below.

    The guard [!sumsubConfig || !counterpartyConfig] tests truthiness, which
    a member inherited from [Object.prototype] passes.  Such a
    "configuration" has no [threshold] (the comparison with [undefined] is
    false) and no [individual] or [company], so selecting the rule set reads
    [below_threshold] of [undefined]: a TypeError. *)
Definition calculateCompliance (countryConfigs : gmap string CountryConfig)
  (input : TransactionInput) : Outcome ComplianceResult :=
  if negb (Js.truthyMember countryConfigs (sumsub_vasp_country input))
     || negb (Js.truthyMember countryConfigs (counterparty_vasp_country input))
  then Throw "Invalid country configuration"
  else
  match countryConfigs !! sumsub_vasp_country input,
        countryConfigs !! counterparty_vasp_country input with
  | Some sumsubConfig, Some counterpartyConfig =>
      let sumsubThresholdMet :=
        PrimFloat.leb (threshold sumsubConfig) (transfer_amount input) in
      let counterpartyThresholdMet :=
        PrimFloat.leb (threshold counterpartyConfig) (transfer_amount input) in
      let sumsubReqs :=
        if sumsubThresholdMet
        then above_threshold (tiersOf sumsubConfig (customer_type input))
        else below_threshold (tiersOf sumsubConfig (customer_type input)) in
      let counterpartyReqs :=
        if counterpartyThresholdMet
        then above_threshold (tiersOf counterpartyConfig (customer_type input))
        else below_threshold (tiersOf counterpartyConfig (customer_type input)) in
      let sumsubExtracted :=
        extractRequiredFieldsWithOrLogic (requirements sumsubReqs) in
      let counterpartyExtracted :=
        extractRequiredFieldsWithOrLogic (requirements counterpartyReqs) in
      let sumsubRequiredFields := requiredFields sumsubExtracted in
      let counterpartyRequiredFields := requiredFields counterpartyExtracted in
      let fieldAnalysis :=
        analyzeFieldDifferencesWithOrGroups
          sumsubRequiredFields counterpartyRequiredFields
          (orGroups sumsubExtracted) (orGroups counterpartyExtracted)
          (transfer_direction input) in
      let complianceStatus :=
        determineComplianceStatus
          sumsubRequiredFields counterpartyRequiredFields
          (transfer_direction input) in
      let amountInUSD :=
        convertToUSD (transfer_amount input) (currency sumsubConfig) in
      Return
        {| sumsub_requirements :=
             {| required_fields := sumsubRequiredFields;
                summary_recommended_fields :=
                  default [] (recommended_fields sumsubReqs);
                requirement_groups := requirements sumsubReqs;
                summary_kyc_required := default false (kyc_required sumsubReqs);
                summary_aml_required := default false (aml_required sumsubReqs);
                summary_wallet_attribution :=
                  default false (wallet_attribution sumsubReqs) |};
           counterparty_requirements :=
             {| required_fields := counterpartyRequiredFields;
                summary_recommended_fields :=
                  default [] (recommended_fields counterpartyReqs);
                requirement_groups := requirements counterpartyReqs;
                summary_kyc_required :=
                  default false (kyc_required counterpartyReqs);
                summary_aml_required :=
                  default false (aml_required counterpartyReqs);
                summary_wallet_attribution :=
                  default false (wallet_attribution counterpartyReqs) |};
           compliance_status := complianceStatus;
           result_currency := currency sumsubConfig;
           threshold_met := sumsubThresholdMet;
           converted_amount := amountInUSD;
           field_analysis := fieldAnalysis |}
  | _, _ => TypeError
  end.

(* ================================================================== *)
(** * The shipped jurisdiction table ([countryConfigs])                *)
(* ================================================================== *)

Definition andGroup (fs : list string) : RequirementGroup :=
  {| fields := fs; logic := AND |}.
Definition orGroup (fs : list string) : RequirementGroup :=
  {| fields := fs; logic := OR |}.

Definition ruleSet (groups : list RequirementGroup) (kyc : bool)
  : JurisdictionRequirements :=
  {| requirements := groups;
     recommended_fields := Some [];
     kyc_required := Some kyc;
     aml_required := Some true;
     wallet_attribution := Some true |}.

Definition deuAlternativeIdentification : list string :=
  ["id_document_number"; "customer_id"; "date_of_birth"; "birthplace"].

Definition companyTiers : ThresholdTiers :=
  {| below_threshold :=
       ruleSet [andGroup ["company_name"; "wallet_address"; "customer_id"]] false;
     above_threshold :=
       ruleSet [andGroup ["company_name"; "company_registration_number";
                          "company_address"; "wallet_address"; "customer_id"]]
               true |}.

Definition configEU : CountryConfig :=
  {| currency := "EUR";
     threshold := 1000%float;
     individual :=
       {| below_threshold :=
            ruleSet [andGroup ["full_name"; "wallet_address"; "customer_id"]] false;
          above_threshold :=
            ruleSet [andGroup ["full_name"; "id_document_number"; "date_of_birth";
                               "residential_address"; "wallet_address";
                               "customer_id"]] true |};
     company := companyTiers |}.

Definition configZAF : CountryConfig :=
  {| currency := "ZAR";
     threshold := 5000%float;
     individual :=
       {| below_threshold :=
            ruleSet [andGroup ["full_name"; "wallet_address"; "customer_id"]] false;
          above_threshold :=
            ruleSet [andGroup ["full_name"; "wallet_address"; "id_document_number";
                               "date_of_birth"; "residential_address";
                               "customer_id"]] true |};
     company := companyTiers |}.

Definition deuIndividual : JurisdictionRequirements :=
  ruleSet [andGroup ["full_name"; "residential_address"; "wallet_address"];
           orGroup deuAlternativeIdentification] true.

Definition deuCompany : JurisdictionRequirements :=
  ruleSet [andGroup ["company_name"; "company_address"; "wallet_address";
                     "lei_or_equivalent"]] true.

Definition configDEU : CountryConfig :=
  {| currency := "EUR";
     threshold := 0%float;
     individual :=
       {| below_threshold := deuIndividual; above_threshold := deuIndividual |};
     company :=
       {| below_threshold := deuCompany; above_threshold := deuCompany |} |}.

Definition shippedCountryConfigs : gmap string CountryConfig :=
  list_to_map [("EU", configEU); ("ZAF", configZAF); ("DEU", configDEU)].

Definition transaction (origin counterparty : string) (direction : Direction)
  (amount : float) : TransactionInput :=
  {| sumsub_vasp_country := origin;
     counterparty_vasp_country := counterparty;
     customer_type := Individual;
     transfer_direction := direction;
     transfer_amount := amount |}.

(* ================================================================== *)
(** * Presentation helper of the calculator component
      ([getMatchCounterpart])                                           *)
(* ================================================================== *)

(** The predicate of the three [find] calls:
    [m.sumsubField === field || m.counterpartyField === field]. *)
Definition mentions (field : string) (m : FieldMatch) : bool :=
  bool_decide (sumsubField m = field)
  || bool_decide (counterpartyField m = field).

(** The component's state holds a result or [null]; [null] is returned as
    [None]. *)
Definition getMatchCounterpart (result : option ComplianceResult)
  (field : string) : option string :=
  match result with
  | None => None
  | Some result =>
      if bool_decide (field = "date_of_birth + birthplace") then
        let dobMatch :=
          List.find (mentions "date_of_birth")
            (field_matches (field_analysis result)) in
        let pobMatch :=
          List.find (mentions "birthplace")
            (field_matches (field_analysis result)) in
        match dobMatch, pobMatch with
        | Some _, Some _ => Some "matched"
        | _, _ => None
        end
      else
        match List.find (mentions field)
                (field_matches (field_analysis result)) with
        | None => None
        | Some m =>
            Some (if bool_decide (sumsubField m = field)
                  then counterpartyField m
                  else sumsubField m)
        end
  end.

(* ================================================================== *)
(** * Vocabulary of the statements: matching                        *)
(* ================================================================== *)

(** The label recorded when the combination rule resolves a group. *)
Definition compositeLabel : string := "date_of_birth + birthplace".

(** The test of the [for ... of] loop on one field. *)
Definition eligible (fieldSet : Js.StrSet) (st : MatchState) (orField : string)
  : bool :=
  Js.has fieldSet orField && negb (Js.has (matchedSumsubFields st) orField).

(** What one OR-group step can do to the state. *)
Inductive StepCase (fieldSet : Js.StrSet) (st : MatchState)
  (groupId : string) (orFields : list string) : MatchState → Prop :=
  | step_unchanged :
      StepCase fieldSet st groupId orFields st
  | step_single orField :
      Js.truthy (Js.get (orGroupMatches st) groupId) = false →
      orField ∈ orFields →
      orField ∈ fieldSet →
      orField ∉ matchedSumsubFields st →
      StepCase fieldSet st groupId orFields (recordOrField st groupId orField)
  | step_combination :
      Js.truthy (Js.get (orGroupMatches st) groupId) = false →
      isDeuOrGroup orFields = true →
      "date_of_birth" ∈ fieldSet →
      "birthplace" ∈ fieldSet →
      (∀ f, f ∈ orFields → f ∈ fieldSet → f ∈ matchedSumsubFields st) →
      StepCase fieldSet st groupId orFields (recordCombination st groupId).

(** The state in which step 3 starts. *)
Definition afterStep2 (sumsubFields counterpartyFields : list string)
  (counterpartyOrGroups : Obj (list string)) : MatchState :=
  step2 sumsubFields counterpartyOrGroups (step1 sumsubFields counterpartyFields).

(** A field that is in the counterparty's mandatory set and not yet claimed
    on the counterparty's side. *)
Definition freeOnCounterparty (counterpartyFields : list string)
  (st : MatchState) (orField : string) : bool :=
  Js.includes counterpartyFields orField
  && negb (Js.has (matchedCounterpartyFields st) orField).

(** Steps 1 to 3 claim a field on both sides at once. *)
Definition synced (st : MatchState) : Prop :=
  matchedSumsubFields st = matchedCounterpartyFields st.

(** The matches recorded so far and the claimed fields tell the same story:
    each side's claimed fields are the matches' fields on that side, in
    order, and no field is claimed twice. *)
Definition oneToOne (st : MatchState) : Prop :=
  sumsubField <$> fieldMatches st = matchedSumsubFields st
  ∧ counterpartyField <$> fieldMatches st = matchedCounterpartyFields st
  ∧ NoDup (matchedSumsubFields st)
  ∧ NoDup (matchedCounterpartyFields st).

(** The state in which the field [x] alone is claimed, by an exact match. *)
Definition onlyClaimed (x : string) : MatchState :=
  {| fieldMatches := [exactMatch x];
     matchedSumsubFields := [x];
     matchedCounterpartyFields := [x];
     orGroupMatches := [] |}.


(* ================================================================== *)
(** * Vocabulary of the statements: extraction                      *)
(* ================================================================== *)

(** The identifier of the [n]-th OR group of one side. *)
Definition groupIdOf (n : nat) : string := "or_group_" +:+ Js.numberToString n.

(** The extractor's two results, each written as a recursion of its own over
    the group sequence: the OR groups numbered from [n] on in order of
    appearance, AND groups taking no number; and the set of the AND groups'
    fields in order of first appearance. *)
Fixpoint numberOrGroups (n : nat) (groups : list RequirementGroup)
  : Obj (list string) :=
  match groups with
  | [] => []
  | group :: rest =>
      match logic group with
      | OR => (groupIdOf n, fields group) :: numberOrGroups (S n) rest
      | AND => numberOrGroups n rest
      end
  end.

(** The fields a group contributes to the mandatory set. *)
Definition andFields (group : RequirementGroup) : list string :=
  match logic group with
  | AND => fields group
  | OR => []
  end.

(** The mandatory set: the AND groups' fields, first appearance first. *)
Definition mandatoryOf (groups : list RequirementGroup) : list string :=
  Js.newSet (flat_map andFields groups).

(* ================================================================== *)
(** * Vocabulary of the statements: orchestration                   *)
(* ================================================================== *)

(** The rule set the orchestrator picks for one party: the above-threshold
    one exactly when the amount reaches the party's own threshold. *)
Definition selectedTier (config : CountryConfig) (customerType : CustomerType)
  (amount : float) : JurisdictionRequirements :=
  if PrimFloat.leb (threshold config) amount
  then above_threshold (tiersOf config customerType)
  else below_threshold (tiersOf config customerType).

(** The summary of a rule set as the result reports it. *)
Definition summarize (reqs : JurisdictionRequirements) : RequirementsSummary :=
  {| required_fields :=
       requiredFields (extractRequiredFieldsWithOrLogic (requirements reqs));
     summary_recommended_fields := default [] (recommended_fields reqs);
     requirement_groups := requirements reqs;
     summary_kyc_required := default false (kyc_required reqs);
     summary_aml_required := default false (aml_required reqs);
     summary_wallet_attribution := default false (wallet_attribution reqs) |}.

(** Two arrays hold the same set of field keys. *)
Definition sameFieldSet (l1 l2 : list string) : Prop := ∀ f, f ∈ l1 ↔ f ∈ l2.

(** The value a call returned, if it returned. *)
Definition returned {A} (o : Outcome A) : option A :=
  match o with
  | Return a => Some a
  | Throw _ => None
  | TypeError => None
  end.

(** A run against the shipped table, for an individual customer. *)
Definition run (origin counterparty : string) (direction : Direction)
  (amount : float) : option ComplianceResult :=
  returned (calculateCompliance shippedCountryConfigs
              (transaction origin counterparty direction amount)).

(* ================================================================== *)
(** * Further jurisdiction tables, for concrete runs                *)
(* ================================================================== *)

(** A second jurisdiction table: Germany's individual rule set without its
    alternative-identification group and with the mandatory fields listed in
    another order. *)
Definition deuMandatoryOnly : JurisdictionRequirements :=
  ruleSet [andGroup ["wallet_address"; "full_name"; "residential_address"]] true.

(** The shipped table with Germany's individual rule set so replaced. *)
Definition tableWithoutOrGroups : gmap string CountryConfig :=
  list_to_map
    [("EU", configEU);
     ("DEU",
      {| currency := "EUR";
         threshold := 0%float;
         individual :=
           {| below_threshold := deuMandatoryOnly;
              above_threshold := deuMandatoryOnly |};
         company :=
           {| below_threshold := deuCompany; above_threshold := deuCompany |} |})].

(** A jurisdiction with one rule set for every customer type and amount. *)
Definition flatConfig (reqs : JurisdictionRequirements) : CountryConfig :=
  {| currency := "EUR";
     threshold := 0%float;
     individual := {| below_threshold := reqs; above_threshold := reqs |};
     company := {| below_threshold := reqs; above_threshold := reqs |} |}.

(** Date and place of birth, mandatory. *)
Definition birthData : JurisdictionRequirements :=
  ruleSet [andGroup ["date_of_birth"; "birthplace"]] true.

(** The same with the alternative-identification group beside it. *)
Definition birthDataWithAlternatives : JurisdictionRequirements :=
  ruleSet [andGroup ["date_of_birth"; "birthplace"];
           orGroup deuAlternativeIdentification] true.

(** The shipped table with [A] and [B] added. *)
Definition tableWithBirthData : gmap string CountryConfig :=
  <["A" := flatConfig birthData]>
    (<["B" := flatConfig birthDataWithAlternatives]> shippedCountryConfigs).

(* ================================================================== *)
(** * Vocabulary of the further properties                             *)
(* ================================================================== *)

(** The OR groups of a rule set, in order of appearance. *)
Definition orGroupsOf (groups : list RequirementGroup) : list RequirementGroup :=
  filter (λ group, logic group = OR) groups.

(** The two updates every matching step is made of: append a match and claim
    its two fields; record a resolution. *)
Definition record (st : MatchState) (m : FieldMatch) : MatchState :=
  {| fieldMatches := fieldMatches st ++ [m];
     matchedSumsubFields := Js.add (matchedSumsubFields st) (sumsubField m);
     matchedCounterpartyFields :=
       Js.add (matchedCounterpartyFields st) (counterpartyField m);
     orGroupMatches := orGroupMatches st |}.

Definition resolve (st : MatchState) (groupId value : string) : MatchState :=
  {| fieldMatches := fieldMatches st;
     matchedSumsubFields := matchedSumsubFields st;
     matchedCounterpartyFields := matchedCounterpartyFields st;
     orGroupMatches := Js.set (orGroupMatches st) groupId value |}.

(** The state on which step 5 reads the analysis off. *)
Definition finalState (sumsubFields counterpartyFields : list string)
  (sumsubOrGroups counterpartyOrGroups : Obj (list string)) : MatchState :=
  step4 sumsubFields counterpartyFields
    (step3 counterpartyFields sumsubOrGroups
       (step2 sumsubFields counterpartyOrGroups
          (step1 sumsubFields counterpartyFields))).

(** A later state keeps what an earlier one had matched and claimed. *)
Definition extends (st st' : MatchState) : Prop :=
  (∀ m, m ∈ fieldMatches st → m ∈ fieldMatches st')
  ∧ (∀ f, f ∈ matchedSumsubFields st → f ∈ matchedSumsubFields st')
  ∧ (∀ f, f ∈ matchedCounterpartyFields st → f ∈ matchedCounterpartyFields st').

(** What stands behind a reported match: the same key mandatory on both
    sides; a field of one side's OR-group that is mandatory on the other side;
    or a mandatory field of the sumsub side paired with one of its aliases of
    the equivalence table that is mandatory on the counterparty side. *)
Inductive Justified (sumsubFields counterpartyFields : list string)
  (sumsubOrGroups counterpartyOrGroups : Obj (list string))
  : FieldMatch → Prop :=
  | justified_exact f :
      f ∈ sumsubFields → f ∈ counterpartyFields →
      Justified sumsubFields counterpartyFields
        sumsubOrGroups counterpartyOrGroups (exactMatch f)
  | justified_counterparty_group f groupId orFields :
      (groupId, orFields) ∈ counterpartyOrGroups →
      f ∈ orFields → f ∈ sumsubFields →
      Justified sumsubFields counterpartyFields
        sumsubOrGroups counterpartyOrGroups (orGroupMatch f groupId)
  | justified_sumsub_group f groupId orFields :
      (groupId, orFields) ∈ sumsubOrGroups →
      f ∈ orFields → f ∈ counterpartyFields →
      Justified sumsubFields counterpartyFields
        sumsubOrGroups counterpartyOrGroups (orGroupMatch f groupId)
  | justified_semantic f alias :
      f ∈ sumsubFields → alias ∈ counterpartyFields →
      alias ∈ default [] (semanticMappings !! f) →
      Justified sumsubFields counterpartyFields
        sumsubOrGroups counterpartyOrGroups (semanticMatch f alias).

(** The claimed sets are the two sides of the recorded matches. *)
Definition sidesAgree (st : MatchState) : Prop :=
  (∀ f, f ∈ matchedSumsubFields st ↔ f ∈ sumsubField <$> fieldMatches st)
  ∧ (∀ f, f ∈ matchedCounterpartyFields st
          ↔ f ∈ counterpartyField <$> fieldMatches st).

(** The resolution record and the alternative-flagged matches tell the same
    story. *)
Definition resolutionsBacked (st : MatchState) : Prop :=
  (∀ groupId value,
     (groupId, value) ∈ orGroupMatches st →
     orGroupMatch value groupId ∈ fieldMatches st
     ∨ (value = compositeLabel
        ∧ orGroupMatch "date_of_birth" groupId ∈ fieldMatches st
        ∧ orGroupMatch "birthplace" groupId ∈ fieldMatches st))
  ∧ (∀ m, m ∈ fieldMatches st →
          isOrGroupMatch m = Some true →
          ∃ groupId, orGroupId m = Some groupId
                     ∧ groupId ∈ (orGroupMatches st).*1)
  ∧ (∀ m, m ∈ fieldMatches st →
          isOrGroupMatch m = None → orGroupId m = None).

(** The two mismatch classifications change places when the parties do. *)
Definition mirror (status : ComplianceStatus) : ComplianceStatus :=
  match status with
  | counterparty_may_request_more => sender_may_not_provide
  | sender_may_not_provide => counterparty_may_request_more
  | full_match => full_match
  | overcompliance => overcompliance
  end.

(** The mandatory fields of each side that an analysis reports as left
    without a match: outbound the sumsub side's are the extra fields and the
    counterparty's the missing fields, inbound the other way round. *)
Definition unmatchedSumsub (dir : Direction) (a : FieldAnalysis) : list string :=
  match dir with
  | OUT => extra_fields a
  | IN => missing_fields a
  end.

Definition unmatchedCounterparty (dir : Direction) (a : FieldAnalysis)
  : list string :=
  match dir with
  | OUT => missing_fields a
  | IN => extra_fields a
  end.

(* ================================================================== *)
(** * Container lemmas                                                 *)
(* ================================================================== *)

Lemma truthyMember_true {V} (table : gmap string V) key :
  Js.truthyMember table key = true
  ↔ is_Some (table !! key) ∨ key ∈ Js.objectPrototype.
Proof.
  unfold Js.truthyMember, Js.includes.
  by rewrite orb_true_iff, !bool_decide_eq_true.
Qed.

Lemma truthyMember_false {V} (table : gmap string V) key :
  Js.truthyMember table key = false
  ↔ table !! key = None ∧ (key ∉ Js.objectPrototype).
Proof.
  unfold Js.truthyMember, Js.includes.
  by rewrite orb_false_iff, !bool_decide_eq_false, <- eq_None_not_Some.
Qed.

Lemma truthyMember_entry {V} (table : gmap string V) key value :
  table !! key = Some value → Js.truthyMember table key = true.
Proof. intros Hkey. apply truthyMember_true. left. by exists value. Qed.

(** Membership in a list that is written out. *)
Ltac list_membership :=
  rewrite ?elem_of_app, ?elem_of_cons, ?elem_of_nil; intuition congruence.

Section containers.
Implicit Types (s l : list string) (x y k : string).

Lemma has_true s x : Js.has s x = true ↔ x ∈ s.
Proof. unfold Js.has. by rewrite bool_decide_eq_true. Qed.

Lemma has_false s x : Js.has s x = false ↔ x ∉ s.
Proof. unfold Js.has. by rewrite bool_decide_eq_false. Qed.

Lemma includes_true l x : Js.includes l x = true ↔ x ∈ l.
Proof. unfold Js.includes. by rewrite bool_decide_eq_true. Qed.

Lemma elem_of_add s x y : y ∈ Js.add s x ↔ y ∈ s ∨ y = x.
Proof.
  unfold Js.add. destruct (Js.has s x) eqn:E.
  - apply has_true in E. split; [by left | intros [?| ->]; done].
  - rewrite elem_of_app, list_elem_of_singleton. done.
Qed.

Lemma elem_of_fold_add l s y :
  y ∈ fold_left Js.add l s ↔ y ∈ s ∨ y ∈ l.
Proof.
  revert s. induction l as [|a l IH]; intros s; simpl.
  - rewrite elem_of_nil. tauto.
  - rewrite IH, elem_of_add, elem_of_cons. tauto.
Qed.

Lemma elem_of_newSet l y : y ∈ Js.newSet l ↔ y ∈ l.
Proof.
  unfold Js.newSet. rewrite elem_of_fold_add, elem_of_nil. tauto.
Qed.

Lemma NoDup_add s x : NoDup s → NoDup (Js.add s x).
Proof.
  intros Hs. unfold Js.add. destruct (Js.has s x) eqn:E; [done|].
  apply has_false in E. apply NoDup_app. split_and!; [done| |apply NoDup_singleton].
  intros z Hz ->%list_elem_of_singleton. done.
Qed.

Lemma NoDup_fold_add l s : NoDup s → NoDup (fold_left Js.add l s).
Proof.
  revert s. induction l as [|a l IH]; intros s Hs; simpl; [done|].
  by apply IH, NoDup_add.
Qed.

Lemma NoDup_newSet l : NoDup (Js.newSet l).
Proof. apply NoDup_fold_add, NoDup_nil_2. Qed.

(** A duplicate-free array is what [new Set] makes of it. *)
Lemma fold_add_NoDup l s :
  NoDup (s ++ l) → fold_left Js.add l s = s ++ l.
Proof.
  revert s. induction l as [|a l IH]; intros s Hnd; simpl.
  - by rewrite app_nil_r.
  - assert (Js.add s a = s ++ [a]) as ->.
    { unfold Js.add. destruct (Js.has s a) eqn:E; [|done].
      apply has_true in E. apply NoDup_app in Hnd as (_ & Hd & _).
      exfalso. apply (Hd a E). by left. }
    rewrite IH; rewrite <- app_assoc; done.
Qed.

Lemma newSet_NoDup l : NoDup l → Js.newSet l = l.
Proof. intros. unfold Js.newSet. by rewrite fold_add_NoDup. Qed.

Context {V : Type}.
Implicit Types (o : Obj V) (v : V).

Lemma get_set_eq o k v : Js.get (Js.set o k v) k = Some v.
Proof.
  induction o as [|[k' v'] o IH]; simpl.
  - by rewrite decide_True.
  - destruct (decide (k' = k)) as [->|Hne]; simpl.
    + by rewrite decide_True.
    + by rewrite decide_False.
Qed.

Lemma get_set_ne o k k' v : k ≠ k' → Js.get (Js.set o k v) k' = Js.get o k'.
Proof.
  intros Hne. induction o as [|[k0 v0] o IH]; simpl.
  - by rewrite decide_False.
  - destruct (decide (k0 = k)) as [->|Hne0]; simpl.
    + by rewrite !decide_False.
    + by rewrite IH.
Qed.

Lemma get_Some_elem_of o k v : Js.get o k = Some v → (k, v) ∈ o.
Proof.
  induction o as [|[k0 v0] o IH]; simpl; [done|].
  destruct (decide (k0 = k)) as [->|Hne].
  - intros [= ->]. by left.
  - intros H. right. by apply IH.
Qed.

(** Assignment never duplicates a key. *)
Lemma set_keys o k v :
  (Js.set o k v).*1 = if decide (k ∈ o.*1) then o.*1 else o.*1 ++ [k].
Proof.
  induction o as [|[k0 v0] o IH].
  - cbn [Js.set fmap list_fmap fst]. case_decide as Hin; [|done].
    by apply elem_of_nil in Hin.
  - cbn [Js.set]. destruct (decide (k0 = k)) as [->|Hne].
    + rewrite !fmap_cons. cbn [fst]. rewrite decide_True; [done|]. by left.
    + rewrite !fmap_cons, IH. cbn [fst].
      destruct (decide (k ∈ o.*1)) as [Hin|Hout].
      * rewrite decide_True; [done|]. by right.
      * rewrite decide_False; [done|].
        intros [?|?]%elem_of_cons; congruence.
Qed.

Lemma set_NoDup_keys o k v : NoDup o.*1 → NoDup (Js.set o k v).*1.
Proof.
  intros Hnd. rewrite set_keys. destruct (decide (k ∈ o.*1)); [done|].
  apply NoDup_app. split_and!; [done| |apply NoDup_singleton].
  intros z Hz ->%list_elem_of_singleton. done.
Qed.

Lemma get_is_Some o k : k ∈ o.*1 → is_Some (Js.get o k).
Proof.
  induction o as [|[k0 v0] o IH]; [by intros ?%elem_of_nil|].
  rewrite fmap_cons, elem_of_cons. cbn.
  destruct (decide (k0 = k)) as [->|Hne]; [by eexists|].
  intros [?|?]; [congruence | by apply IH].
Qed.

End containers.

(* ================================================================== *)
(** * The OR-group step                                                *)
(* ================================================================== *)

Lemma isDeuOrGroup_spec fs :
  isDeuOrGroup fs = true ↔
  length fs = 4 ∧ "id_document_number" ∈ fs ∧ "customer_id" ∈ fs
  ∧ "date_of_birth" ∈ fs ∧ "birthplace" ∈ fs.
Proof.
  unfold isDeuOrGroup.
  rewrite !andb_true_iff, bool_decide_eq_true, !includes_true. tauto.
Qed.

(** Four places for four distinct names: a DEU-style group lists nothing
    else. *)
Lemma isDeuOrGroup_fields fs f :
  isDeuOrGroup fs = true → f ∈ fs → f ∈ deuAlternativeIdentification.
Proof.
  rewrite isDeuOrGroup_spec. intros (Hlen & H1 & H2 & H3 & H4) Hf.
  destruct fs as [|a [|b [|c [|d [|? ?]]]]]; try discriminate Hlen.
  unfold deuAlternativeIdentification.
  rewrite !elem_of_cons, elem_of_nil in H1, H2, H3, H4, Hf.
  rewrite !elem_of_cons, elem_of_nil.
  destruct H1 as [?|[?|[?|[?|[]]]]]; subst;
  destruct H2 as [?|[?|[?|[?|[]]]]]; subst; try discriminate;
  destruct H3 as [?|[?|[?|[?|[]]]]]; subst; try discriminate;
  destruct H4 as [?|[?|[?|[?|[]]]]]; subst; try discriminate;
  tauto.
Qed.

Lemma isDeuOrGroup_field_nonempty fs f :
  isDeuOrGroup fs = true → f ∈ fs → f ≠ "".
Proof.
  intros Hd Hf. pose proof (isDeuOrGroup_fields _ _ Hd Hf) as Hin.
  unfold deuAlternativeIdentification in Hin.
  rewrite !elem_of_cons, elem_of_nil in Hin.
  destruct Hin as [->|[->|[->|[->|[]]]]]; discriminate.
Qed.

Lemma scanOrFields_find fieldSet groupId orFields st :
  scanOrFields fieldSet groupId orFields st =
  match List.find (eligible fieldSet st) orFields with
  | Some orField => recordOrField st groupId orField
  | None => st
  end.
Proof.
  induction orFields as [|f fs IH]; simpl; [done|].
  unfold eligible at 1. by destruct (_ && _).
Qed.

Lemma orGroupStep_skip fieldSet st groupId orFields :
  Js.truthy (Js.get (orGroupMatches st) groupId) = true →
  orGroupStep fieldSet st (groupId, orFields) = st.
Proof. intros H. unfold orGroupStep. by rewrite H. Qed.

Lemma orGroupStep_single fieldSet st groupId orFields orField :
  Js.truthy (Js.get (orGroupMatches st) groupId) = false →
  List.find (eligible fieldSet st) orFields = Some orField →
  orGroupStep fieldSet st (groupId, orFields) = recordOrField st groupId orField.
Proof.
  intros Hskip Hfind. unfold orGroupStep.
  rewrite Hskip, scanOrFields_find, Hfind.
  cbn [orGroupMatches recordOrField]. rewrite get_set_eq.
  destruct (isDeuOrGroup orFields) eqn:Hdeu; [|by rewrite andb_false_r].
  apply find_some in Hfind as [Hin _]. apply list_elem_of_In in Hin.
  pose proof (isDeuOrGroup_field_nonempty _ _ Hdeu Hin) as Hne.
  unfold Js.truthy. by rewrite bool_decide_false.
Qed.

Lemma orGroupStep_no_single fieldSet st groupId orFields :
  Js.truthy (Js.get (orGroupMatches st) groupId) = false →
  List.find (eligible fieldSet st) orFields = None →
  orGroupStep fieldSet st (groupId, orFields) =
  if isDeuOrGroup orFields && checkDeuCombinationMatch fieldSet orFields
  then recordCombination st groupId else st.
Proof.
  intros Hskip Hfind. unfold orGroupStep.
  rewrite Hskip, scanOrFields_find, Hfind, Hskip. cbn [negb andb].
  by destruct (isDeuOrGroup orFields), (checkDeuCombinationMatch _ _).
Qed.

Lemma eligible_true fieldSet st f :
  eligible fieldSet st f = true ↔ f ∈ fieldSet ∧ f ∉ matchedSumsubFields st.
Proof.
  unfold eligible. by rewrite andb_true_iff, negb_true_iff, has_true, has_false.
Qed.

Lemma orGroupStep_case fieldSet st groupId orFields :
  StepCase fieldSet st groupId orFields
    (orGroupStep fieldSet st (groupId, orFields)).
Proof.
  destruct (Js.truthy (Js.get (orGroupMatches st) groupId)) eqn:Hskip.
  { rewrite orGroupStep_skip by done. constructor. }
  destruct (List.find (eligible fieldSet st) orFields) as [f|] eqn:Hfind.
  - rewrite (orGroupStep_single _ _ _ _ f) by done.
    apply find_some in Hfind as [Hin [? ?]%eligible_true].
    apply list_elem_of_In in Hin. by constructor.
  - rewrite orGroupStep_no_single by done.
    destruct (isDeuOrGroup orFields) eqn:Hdeu; [|constructor].
    destruct (checkDeuCombinationMatch fieldSet orFields) eqn:Hc; [|constructor].
    unfold checkDeuCombinationMatch in Hc.
    apply andb_true_iff in Hc as [?%has_true ?%has_true].
    constructor; try done.
    intros f Hf HS. destruct (decide (f ∈ matchedSumsubFields st)); [done|].
    apply list_elem_of_In in Hf.
    pose proof (find_none _ _ Hfind f Hf) as Hn.
    assert (eligible fieldSet st f = true) by by apply eligible_true.
    congruence.
Qed.

(* ================================================================== *)
(** * Invariants of steps 1 to 3                                       *)
(* ================================================================== *)

Lemma fold_left_invariant {A B} (P : A → Prop) (f : A → B → A) (l : list B) a :
  P a → (∀ a b, b ∈ l → P a → P (f a b)) → P (fold_left f l a).
Proof.
  revert a. induction l as [|b l IH]; intros a Ha Hstep; simpl; [done|].
  apply IH.
  - apply Hstep; [by left | done].
  - intros a' b' Hb'. apply Hstep. by right.
Qed.

Lemma fold_left_snoc {A B} (f : A → B → A) (l : list B) b a :
  fold_left f (l ++ [b]) a = f (fold_left f l a) b.
Proof. by rewrite fold_left_app. Qed.

Lemma step1_synced sumsubFields counterpartyFields :
  synced (step1 sumsubFields counterpartyFields).
Proof.
  unfold step1. apply fold_left_invariant; [done|].
  intros st f _ Hst. unfold exactStep, synced in *.
  destruct (Js.has _ f); [|done]. cbn. by rewrite Hst.
Qed.

Lemma orGroupStep_synced fieldSet st entry :
  synced st → synced (orGroupStep fieldSet st entry).
Proof.
  destruct entry as [groupId orFields]. intros Hst.
  destruct (orGroupStep_case fieldSet st groupId orFields);
    unfold synced in *; cbn; by rewrite ?Hst.
Qed.

Lemma orGroups_synced fieldSet groups st :
  synced st → synced (fold_left (orGroupStep fieldSet) groups st).
Proof.
  intros. apply fold_left_invariant; [done|].
  intros. by apply orGroupStep_synced.
Qed.

Lemma afterStep2_synced sumsubFields counterpartyFields counterpartyOrGroups :
  synced (afterStep2 sumsubFields counterpartyFields counterpartyOrGroups).
Proof. apply orGroups_synced, step1_synced. Qed.

(** Matches are only ever appended. *)
Lemma orGroupStep_keeps_matches fieldSet st entry m :
  m ∈ fieldMatches st → m ∈ fieldMatches (orGroupStep fieldSet st entry).
Proof.
  destruct entry as [groupId orFields]. intros Hm.
  destruct (orGroupStep_case fieldSet st groupId orFields); cbn;
    rewrite ?elem_of_app; auto.
Qed.

Lemma semanticStep_keeps_matches st m' m :
  m ∈ fieldMatches st → m ∈ fieldMatches (semanticStep st m').
Proof.
  intros Hm. unfold semanticStep. destruct (_ && _); cbn; [|done].
  rewrite elem_of_app. auto.
Qed.

Lemma orGroups_keep_matches fieldSet groups st m :
  m ∈ fieldMatches st →
  m ∈ fieldMatches (fold_left (orGroupStep fieldSet) groups st).
Proof.
  intros. apply (fold_left_invariant (λ st, m ∈ fieldMatches st)); [done|].
  intros. by apply orGroupStep_keeps_matches.
Qed.

Lemma step4_keeps_matches sumsubFields counterpartyFields st m :
  m ∈ fieldMatches st →
  m ∈ fieldMatches (step4 sumsubFields counterpartyFields st).
Proof.
  intros. unfold step4.
  apply (fold_left_invariant (λ st, m ∈ fieldMatches st)); [done|].
  intros. by apply semanticStep_keeps_matches.
Qed.

Lemma step5_field_matches sumsubFields counterpartyFields dir st :
  field_matches (step5 sumsubFields counterpartyFields dir st) = fieldMatches st.
Proof. by destruct dir. Qed.

Lemma step5_or_group_matches sumsubFields counterpartyFields dir st :
  or_group_matches (step5 sumsubFields counterpartyFields dir st)
  = orGroupMatches st.
Proof. by destruct dir. Qed.

(** Step 4 leaves the resolutions alone, and its matches carry no group. *)
Lemma semanticStep_orGroupMatches st m :
  orGroupMatches (semanticStep st m) = orGroupMatches st.
Proof. unfold semanticStep. by destruct (_ && _). Qed.

Lemma step4_orGroupMatches sumsubFields counterpartyFields st :
  orGroupMatches (step4 sumsubFields counterpartyFields st) = orGroupMatches st.
Proof.
  unfold step4.
  apply (fold_left_invariant (λ st', orGroupMatches st' = orGroupMatches st));
    [done|].
  intros st' m _ <-. apply semanticStep_orGroupMatches.
Qed.

Lemma findSemanticMatches_spec sumsubFields counterpartyFields m :
  m ∈ findSemanticMatches sumsubFields counterpartyFields →
  sumsubField m ∈ sumsubFields
  ∧ counterpartyField m ∈ counterpartyFields
  ∧ isExactMatch m = false ∧ isOrGroupMatch m = None ∧ orGroupId m = None.
Proof.
  unfold findSemanticMatches.
  rewrite list_elem_of_In, in_flat_map.
  intros (f & Hf%list_elem_of_In & Hm%list_elem_of_In).
  apply list_elem_of_fmap in Hm as (pm & -> & Hpm).
  apply list_elem_of_filter in Hpm as [Hinc%includes_true _]. by cbn.
Qed.

Lemma step4_new_matches sumsubFields counterpartyFields st m :
  m ∈ fieldMatches (step4 sumsubFields counterpartyFields st) →
  m ∈ fieldMatches st ∨ orGroupId m = None.
Proof.
  unfold step4.
  apply (fold_left_invariant
           (λ st', m ∈ fieldMatches st' → m ∈ fieldMatches st ∨ orGroupId m = None));
    [auto|].
  intros st' m' Hm' IH. unfold semanticStep. destruct (_ && _); [|done].
  cbn. rewrite elem_of_app, list_elem_of_singleton. intros [?| ->]; [auto|].
  right. by apply findSemanticMatches_spec in Hm' as (_ & _ & _ & _ & ?).
Qed.

(* ================================================================== *)
(** * Extraction                                                       *)
(* ================================================================== *)

Lemma add_fresh (s : list string) (x : string) : x ∉ s → Js.add s x = s ++ [x].
Proof. intros H. unfold Js.add. apply has_false in H. by rewrite H. Qed.

Lemma add_present (s : list string) (x : string) : x ∈ s → Js.add s x = s.
Proof. intros H. unfold Js.add. apply has_true in H. by rewrite H. Qed.

(** Decimal numerals of distinct counters are distinct. *)
Lemma to_uint_nonnil (n : nat) : Nat.to_uint n ≠ Decimal.Nil.
Proof.
  rewrite <- (DecimalNat.Unsigned.of_to n) at 1.
  rewrite DecimalNat.Unsigned.to_of. apply DecimalFacts.unorm_nonnil.
Qed.

Lemma numberToString_inj (n m : nat) :
  Js.numberToString n = Js.numberToString m → n = m.
Proof.
  unfold Js.numberToString. intros Heq.
  apply (f_equal NilZero.uint_of_string) in Heq.
  rewrite !NilZero.usu in Heq by apply to_uint_nonnil.
  injection Heq as Heq. by apply DecimalNat.Unsigned.to_uint_inj.
Qed.

Lemma groupIdOf_inj (n m : nat) : groupIdOf n = groupIdOf m → n = m.
Proof.
  unfold groupIdOf. intros Heq. apply numberToString_inj.
  cbn in Heq. by injection Heq.
Qed.

Lemma assign_fresh {V} (o : Obj V) k v : k ∉ o.*1 → Js.set o k v = o ++ [(k, v)].
Proof.
  induction o as [|[k0 v0] o IH]; intros Hk; [done|].
  rewrite fmap_cons, not_elem_of_cons in Hk. destruct Hk as [Hne Hk].
  cbn. rewrite decide_False by done. by rewrite IH.
Qed.

Lemma numberOrGroups_keys (n : nat) groups (k : string) :
  k ∈ (numberOrGroups n groups).*1 → ∃ m : nat, (n ≤ m)%nat ∧ k = groupIdOf m.
Proof.
  revert n. induction groups as [|g rest IH]; intros n; cbn.
  - by intros ?%elem_of_nil.
  - destruct (logic g).
    + apply IH.
    + rewrite fmap_cons, elem_of_cons. intros [-> | Hin].
      * exists n. split; [lia | done].
      * destruct (IH _ Hin) as (m & ? & ->). exists m. split; [lia | done].
Qed.

(** The loop computes the two recursions, from any state whose recorded
    identifiers are below its counter. *)
Lemma extract_fold groups st :
  (∀ k : string, k ∈ (ex_orGroups st).*1 →
     ∃ m : nat, (m < ex_orGroupCounter st)%nat ∧ k = groupIdOf m) →
  fold_left extractStep groups st
  = {| ex_requiredFields :=
         fold_left Js.add (flat_map andFields groups) (ex_requiredFields st);
       ex_orGroups :=
         ex_orGroups st ++ numberOrGroups (ex_orGroupCounter st) groups;
       ex_orGroupCounter :=
         ex_orGroupCounter st
         + length (numberOrGroups (ex_orGroupCounter st) groups) |}.
Proof.
  revert st. induction groups as [|g rest IH]; intros st Hbelow.
  - cbn. rewrite app_nil_r, Nat.add_0_r. by destruct st.
  - cbn [fold_left]. rewrite IH.
    + unfold extractStep, andFields. cbn [flat_map numberOrGroups].
      destruct (logic g); cbn [ex_requiredFields ex_orGroups ex_orGroupCounter].
      * by rewrite fold_left_app.
      * fold (groupIdOf (ex_orGroupCounter st)).
        rewrite assign_fresh.
        -- rewrite <- app_assoc. cbn [app length]. f_equal. lia.
        -- intros (m & Hlt & Heq%groupIdOf_inj)%Hbelow. lia.
    + unfold extractStep.
      destruct (logic g); cbn [ex_requiredFields ex_orGroups ex_orGroupCounter];
        [done|].
      fold (groupIdOf (ex_orGroupCounter st)).
      intros k. rewrite set_keys. case_decide as Hin.
      * intros (m & ? & ->)%Hbelow. exists m. split; [lia | done].
      * rewrite elem_of_app, list_elem_of_singleton.
        intros [(m & ? & ->)%Hbelow | ->].
        -- exists m. split; [lia | done].
        -- exists (ex_orGroupCounter st). split; [lia | done].
Qed.

(** The extractor on any group sequence: the mandatory fields are the AND
    groups' fields in order of first appearance, the OR-groups are numbered
    from 0 in order of appearance, each side on its own. *)
Lemma extract_refines groups :
  extractRequiredFieldsWithOrLogic groups
  = {| requiredFields := mandatoryOf groups;
       orGroups := numberOrGroups 0 groups |}.
Proof.
  unfold extractRequiredFieldsWithOrLogic. rewrite extract_fold; [done|].
  cbn. by intros k ?%elem_of_nil.
Qed.

(** The extracted table is a dictionary: no identifier is used twice. *)
Lemma numberOrGroups_NoDup_keys (n : nat) groups :
  NoDup (numberOrGroups n groups).*1.
Proof.
  revert n. induction groups as [|g rest IH]; intros n; cbn;
    [apply NoDup_nil_2|].
  destruct (logic g); [apply IH|].
  rewrite fmap_cons. apply NoDup_cons. split; [|apply IH].
  intros (m & Hle & Heq%groupIdOf_inj)%numberOrGroups_keys. lia.
Qed.

(** Each side counts from 0: whenever a side has an OR group at all, its
    first one is filed under [or_group_0]. *)
Lemma numberOrGroups_first (n : nat) groups group :
  group ∈ groups → logic group = OR →
  ∃ orFields rest,
    numberOrGroups n groups = (groupIdOf n, orFields) :: rest.
Proof.
  intros Hin Hor.
  induction groups as [|g rest IH]; [by apply elem_of_nil in Hin|].
  cbn. destruct (logic g) eqn:Hg.
  - apply elem_of_cons in Hin as [-> | Hin]; [congruence | by apply IH].
  - by eexists _, _.
Qed.

(** The two sides are extracted separately, so as soon as each has an OR
    group their tables both use the identifier [or_group_0]. *)
Lemma first_or_groups_share_identifier groupsA groupsB groupA groupB :
  groupA ∈ groupsA → logic groupA = OR →
  groupB ∈ groupsB → logic groupB = OR →
  ∃ orFieldsA orFieldsB,
    Js.get (orGroups (extractRequiredFieldsWithOrLogic groupsA)) "or_group_0"
    = Some orFieldsA
    ∧ Js.get (orGroups (extractRequiredFieldsWithOrLogic groupsB)) "or_group_0"
      = Some orFieldsB.
Proof.
  intros HA HorA HB HorB. rewrite !extract_refines. cbn [orGroups].
  destruct (numberOrGroups_first 0 groupsA groupA HA HorA) as (fA & restA & ->).
  destruct (numberOrGroups_first 0 groupsB groupB HB HorB) as (fB & restB & ->).
  by exists fA, fB.
Qed.

(** C7 (as amended): applying the extractor to the group sequence
    [AND{a,b}, OR{c,d}, AND{b,e}, OR{f,g}], with a, b, e distinct, yields
    the mandatory fields [a, b, e] (first-appearance order, the duplicate b
    dropped) and exactly two OR-groups, [or_group_0 = {c,d}] and
    [or_group_1 = {f,g}]: identifiers have the form [or_group_<n>], n counts
    the OR groups from 0, AND groups consume no identifier, and no OR-group
    field enters the mandatory set. *)
Theorem C7_extraction_order_and_identifiers (a b c d e f g : string) :
  a ≠ b → a ≠ e → b ≠ e →
  extractRequiredFieldsWithOrLogic
    [andGroup [a; b]; orGroup [c; d]; andGroup [b; e]; orGroup [f; g]]
  = {| requiredFields := [a; b; e];
       orGroups := [("or_group_0", [c; d]); ("or_group_1", [f; g])] |}.
Proof.
  intros Hab Hae Hbe.
  unfold extractRequiredFieldsWithOrLogic. cbn [fold_left].
  unfold extractStep at 4. cbn [logic andGroup fields fold_left ex_requiredFields
    ex_orGroups ex_orGroupCounter].
  rewrite (add_fresh [] a) by apply not_elem_of_nil.
  rewrite (add_fresh ([] ++ [a]) b) by list_membership.
  unfold extractStep at 3. cbn [logic orGroup fields ex_requiredFields
    ex_orGroups ex_orGroupCounter].
  unfold extractStep at 2. cbn [logic andGroup fields fold_left ex_requiredFields
    ex_orGroups ex_orGroupCounter].
  rewrite (add_present _ b) by list_membership.
  rewrite (add_fresh _ e) by list_membership.
  unfold extractStep. cbn [logic orGroup fields ex_requiredFields
    ex_orGroups ex_orGroupCounter].
  reflexivity.
Qed.

(** C7 on the field keys [a] to [g]. *)
Lemma C7_extraction_witness :
  extractRequiredFieldsWithOrLogic
    [andGroup ["a"; "b"]; orGroup ["c"; "d"];
     andGroup ["b"; "e"]; orGroup ["f"; "g"]]
  = {| requiredFields := ["a"; "b"; "e"];
       orGroups := [("or_group_0", ["c"; "d"]); ("or_group_1", ["f"; "g"])] |}.
Proof.
  apply (C7_extraction_order_and_identifiers "a" "b" "c" "d" "e" "f" "g");
    discriminate.
Defined.

(** C7 as stated fails on the identifiers: the extractor names the groups
    [or_group_0] and [or_group_1]; no group is filed under [group_0] or
    [group_1]. *)
Lemma C7_identifier_form_counterexample :
  let extracted :=
    extractRequiredFieldsWithOrLogic
      [andGroup ["a"; "b"]; orGroup ["c"; "d"];
       andGroup ["b"; "e"]; orGroup ["f"; "g"]] in
  orGroups extracted ≠ [("group_0", ["c"; "d"]); ("group_1", ["f"; "g"])]
  ∧ Js.get (orGroups extracted) "group_0" = None
  ∧ Js.get (orGroups extracted) "group_1" = None
  ∧ Js.get (orGroups extracted) "or_group_0" = Some ["c"; "d"].
Proof. vm_compute. split_and!; [discriminate|done..]. Qed.

(* ================================================================== *)
(** * The combination rule                                             *)
(* ================================================================== *)

(** When a step applies the combination rule, both of its fields are already
    claimed: the single-field scan that runs first takes either of them if it
    is still free. *)
Lemma combination_only_on_claimed_fields fieldSet st groupId orFields :
  orGroupStep fieldSet st (groupId, orFields) = recordCombination st groupId →
  "date_of_birth" ∈ matchedSumsubFields st
  ∧ "birthplace" ∈ matchedSumsubFields st.
Proof.
  intros Heq.
  pose proof (orGroupStep_case fieldSet st groupId orFields) as Hcase.
  rewrite Heq in Hcase.
  remember (recordCombination st groupId) as st' eqn:Hst in Hcase.
  destruct Hcase as [ | f _ _ _ _ | _ Hdeu Hd Hb Hclaimed].
  - exfalso. apply (f_equal (λ s, length (fieldMatches s))) in Hst.
    cbn [fieldMatches recordCombination] in Hst.
    rewrite !length_app in Hst. simpl in Hst. lia.
  - exfalso. apply (f_equal (λ s, length (fieldMatches s))) in Hst.
    cbn [fieldMatches recordOrField recordCombination] in Hst.
    rewrite !length_app in Hst. simpl in Hst. lia.
  - apply isDeuOrGroup_spec in Hdeu as (_ & _ & _ & ? & ?). split; auto.
Qed.

(** C1: evaluation at the failing input.  The counterparty owns the group
    {id_document_number, customer_id, date_of_birth, birthplace}; the sumsub
    mandatory set is {date_of_birth, birthplace}.  The group is resolved by
    the single field [date_of_birth] with one match; the composite label is
    not recorded.  The same happens through the orchestrator, for a transfer
    from a jurisdiction that mandates date and place of birth to Germany. *)
Theorem C1_single_field_scan_preempts_combination :
  let analysis :=
    analyzeFieldDifferencesWithOrGroups
      ["date_of_birth"; "birthplace"] []
      [] [("or_group_0", deuAlternativeIdentification)] OUT in
  (or_group_matches analysis = [("or_group_0", "date_of_birth")]
   ∧ field_matches analysis = [orGroupMatch "date_of_birth" "or_group_0"]
   ∧ Js.get (or_group_matches analysis) "or_group_0" ≠ Some compositeLabel)
  ∧ (λ r, (required_fields (sumsub_requirements r),
           or_group_matches (field_analysis r),
           field_matches (field_analysis r)))
      <$> returned (calculateCompliance tableWithBirthData
                      (transaction "A" "DEU" OUT 100))
    = Some (["date_of_birth"; "birthplace"],
            [("or_group_0", "date_of_birth")],
            [orGroupMatch "date_of_birth" "or_group_0"]).
Proof. vm_compute. split_and!; [done|done|discriminate|done]. Qed.

(** Apart from the combination rule, every step keeps the matching 1:1. *)
Lemma oneToOne_append st m :
  oneToOne st →
  sumsubField m ∉ matchedSumsubFields st →
  counterpartyField m ∉ matchedCounterpartyFields st →
  oneToOne
    {| fieldMatches := fieldMatches st ++ [m];
       matchedSumsubFields := Js.add (matchedSumsubFields st) (sumsubField m);
       matchedCounterpartyFields :=
         Js.add (matchedCounterpartyFields st) (counterpartyField m);
       orGroupMatches := orGroupMatches st |}.
Proof.
  intros (Hs & Hc & Hnds & Hndc) Hfs Hfc. unfold oneToOne. cbn.
  rewrite !fmap_app, Hs, Hc, !add_fresh by done.
  split_and!; try done; apply NoDup_app; split_and!;
    try done; try apply NoDup_singleton;
    by intros f Hf ->%list_elem_of_singleton.
Qed.

Lemma step1_oneToOne sumsubFields counterpartyFields :
  NoDup sumsubFields → oneToOne (step1 sumsubFields counterpartyFields).
Proof.
  unfold step1. generalize (Js.newSet counterpartyFields) as cSet. intros cSet.
  assert (oneToOne initialState ∧ synced initialState) as Hinit.
  { unfold oneToOne, synced. cbn. split_and!; try done; apply NoDup_nil_2. }
  assert (∀ f, f ∈ sumsubFields → f ∉ matchedSumsubFields initialState) as Hfree.
  { intros f _. apply not_elem_of_nil. }
  revert Hinit Hfree. generalize initialState as st.
  induction sumsubFields as [|a l IH]; intros st [Hone Hsync] Hfree Hnd;
    [done|].
  apply NoDup_cons in Hnd as [Ha Hnd]. cbn [fold_left]. apply IH; [| |done].
  - unfold exactStep. destruct (Js.has cSet a); [|done].
    assert (a ∉ matchedSumsubFields st) as Has by (apply Hfree; by left).
    split.
    + apply (oneToOne_append st (exactMatch a)); [done..|].
      cbn. by rewrite <- Hsync.
    + unfold synced in *. cbn. by rewrite Hsync.
  - intros f Hf. unfold exactStep. destruct (Js.has cSet a); cbn.
    + rewrite elem_of_add. intros [?| ->]; [|done].
      by apply (Hfree f); [right|].
    + apply Hfree. by right.
Qed.

Lemma orGroupStep_oneToOne fieldSet st groupId orFields :
  isDeuOrGroup orFields = false →
  oneToOne st ∧ synced st →
  oneToOne (orGroupStep fieldSet st (groupId, orFields))
  ∧ synced (orGroupStep fieldSet st (groupId, orFields)).
Proof.
  intros Hdeu [Hone Hsync]. split; [|by apply orGroupStep_synced].
  destruct (orGroupStep_case fieldSet st groupId orFields)
    as [ | f _ _ _ Hfree | _ Hdeu' _ _ _]; [done| |congruence].
  apply (oneToOne_append st (orGroupMatch f groupId)); [done..|].
  cbn. by rewrite <- Hsync.
Qed.

Lemma semanticStep_oneToOne st m : oneToOne st → oneToOne (semanticStep st m).
Proof.
  intros Hone. unfold semanticStep.
  destruct (negb (Js.has (matchedSumsubFields st) (sumsubField m))) eqn:Hs;
    [|done].
  destruct (negb (Js.has (matchedCounterpartyFields st) (counterpartyField m)))
    eqn:Hc; [|done].
  apply negb_true_iff in Hs, Hc. apply has_false in Hs, Hc.
  by apply oneToOne_append.
Qed.

(** Without a DEU-style group on either side the combination rule cannot
    fire, and the returned matching is 1:1. *)
Lemma matching_oneToOne_without_combination
  (sumsubFields counterpartyFields : list string)
  (sumsubOrGroups counterpartyOrGroups : Obj (list string)) (dir : Direction) :
  NoDup sumsubFields →
  (∀ groupId orFields,
     (groupId, orFields) ∈ sumsubOrGroups
     ∨ (groupId, orFields) ∈ counterpartyOrGroups →
     isDeuOrGroup orFields = false) →
  let analysis :=
    analyzeFieldDifferencesWithOrGroups sumsubFields counterpartyFields
      sumsubOrGroups counterpartyOrGroups dir in
  NoDup (sumsubField <$> field_matches analysis)
  ∧ NoDup (counterpartyField <$> field_matches analysis).
Proof.
  intros Hnd Hnodeu analysis.
  assert (oneToOne
            (step3 counterpartyFields sumsubOrGroups
               (step2 sumsubFields counterpartyOrGroups
                  (step1 sumsubFields counterpartyFields)))
          ∧ synced
              (step3 counterpartyFields sumsubOrGroups
                 (step2 sumsubFields counterpartyOrGroups
                    (step1 sumsubFields counterpartyFields))))
    as [Hone3 _].
  { unfold step3, step2.
    apply (fold_left_invariant (λ st, oneToOne st ∧ synced st)).
    - apply (fold_left_invariant (λ st, oneToOne st ∧ synced st)).
      + split; [by apply step1_oneToOne | apply step1_synced].
      + intros st [g fs] Hin. apply orGroupStep_oneToOne, (Hnodeu g). by right.
    - intros st [g fs] Hin. apply orGroupStep_oneToOne, (Hnodeu g). by left. }
  assert (oneToOne
            (step4 sumsubFields counterpartyFields
               (step3 counterpartyFields sumsubOrGroups
                  (step2 sumsubFields counterpartyOrGroups
                     (step1 sumsubFields counterpartyFields)))))
    as (Hs & Hc & Hnds & Hndc).
  { unfold step4. apply fold_left_invariant; [done|].
    intros. by apply semanticStep_oneToOne. }
  unfold analysis, analyzeFieldDifferencesWithOrGroups.
  rewrite step5_field_matches. by rewrite Hs, Hc.
Qed.

(** C2: evaluation at the failing input.  Both mandatory sets are
    {date_of_birth, birthplace} and the counterparty owns the four-field
    group.  Step 1 matches both fields exactly; the combination rule of step 2
    then matches both again, so each occurs in two entries of
    [field_matches].  The same happens through the orchestrator. *)
Theorem C2_combination_rematches_claimed_fields :
  let analysis :=
    analyzeFieldDifferencesWithOrGroups
      ["date_of_birth"; "birthplace"] ["date_of_birth"; "birthplace"]
      [] [("or_group_0", deuAlternativeIdentification)] OUT in
  (field_matches analysis =
     [exactMatch "date_of_birth"; exactMatch "birthplace";
      orGroupMatch "date_of_birth" "or_group_0";
      orGroupMatch "birthplace" "or_group_0"]
   ∧ ¬ NoDup (sumsubField <$> field_matches analysis)
   ∧ ¬ NoDup (counterpartyField <$> field_matches analysis))
  ∧ (λ r, sumsubField <$> field_matches (field_analysis r))
      <$> returned (calculateCompliance tableWithBirthData
                      (transaction "A" "B" OUT 100))
    = Some ["date_of_birth"; "birthplace"; "date_of_birth"; "birthplace"].
Proof.
  vm_compute. split_and!; [done| | |done];
    intros Hnd; apply NoDup_cons in Hnd as [Hnotin _]; apply Hnotin;
    list_membership.
Qed.

(* ================================================================== *)
(** * Step 3: the sumsub side's OR-groups                              *)
(* ================================================================== *)

(** On a synced state the loop's own test (claimed on the sumsub side) and
    the counterparty-side reading agree. *)
Lemma eligible_freeOnCounterparty counterpartyFields st f :
  synced st →
  eligible (Js.newSet counterpartyFields) st f
  = freeOnCounterparty counterpartyFields st f.
Proof.
  intros Hst. unfold eligible, freeOnCounterparty. rewrite Hst. f_equal.
  apply bool_decide_ext. apply elem_of_newSet.
Qed.

Lemma find_ext_eq {A} (p q : A → bool) (l : list A) :
  (∀ x, p x = q x) → List.find p l = List.find q l.
Proof. intros H. induction l as [|a l IH]; simpl; [done|]. by rewrite H, IH. Qed.

(** C3: step 3 resolves each sumsub OR-group that is not skipped by the first
    field of its declared list that is present in the counterparty's
    mandatory set and not yet claimed on the counterparty's side: it appends
    an exact, alternative-flagged match for that field, claims the field on
    both sides and records the field key as the group's resolution; the match
    is part of the returned analysis. *)
Theorem C3_step3_first_free_field
  (sumsubFields counterpartyFields : list string)
  (sumsubOrGroups counterpartyOrGroups : Obj (list string))
  (dir : Direction)
  (before after : Obj (list string)) (groupId : string)
  (orFields : list string) (orField : string) :
  sumsubOrGroups = before ++ (groupId, orFields) :: after →
  let st := step3 counterpartyFields before
              (afterStep2 sumsubFields counterpartyFields counterpartyOrGroups) in
  Js.truthy (Js.get (orGroupMatches st) groupId) = false →
  List.find (freeOnCounterparty counterpartyFields st) orFields = Some orField →
  step3 counterpartyFields (before ++ [(groupId, orFields)])
    (afterStep2 sumsubFields counterpartyFields counterpartyOrGroups)
  = {| fieldMatches :=
         fieldMatches st
         ++ [{| sumsubField := orField;
                counterpartyField := orField;
                isExactMatch := true;
                isOrGroupMatch := Some true;
                orGroupId := Some groupId |}];
       matchedSumsubFields := Js.add (matchedSumsubFields st) orField;
       matchedCounterpartyFields := Js.add (matchedCounterpartyFields st) orField;
       orGroupMatches := Js.set (orGroupMatches st) groupId orField |}
  ∧ orGroupMatch orField groupId
      ∈ field_matches
          (analyzeFieldDifferencesWithOrGroups sumsubFields counterpartyFields
             sumsubOrGroups counterpartyOrGroups dir).
Proof.
  intros Hsplit st Hskip Hfind.
  assert (synced st) as Hsync.
  { apply orGroups_synced, afterStep2_synced. }
  assert (step3 counterpartyFields (before ++ [(groupId, orFields)])
            (afterStep2 sumsubFields counterpartyFields counterpartyOrGroups)
          = recordOrField st groupId orField) as Hstep.
  { unfold step3. rewrite fold_left_snoc.
    apply orGroupStep_single; [done|].
    rewrite <- Hfind. apply find_ext_eq.
    intros f. by apply eligible_freeOnCounterparty. }
  split; [by rewrite Hstep|].
  unfold analyzeFieldDifferencesWithOrGroups.
  rewrite step5_field_matches. apply step4_keeps_matches.
  rewrite Hsplit, (cons_middle _ before after), app_assoc.
  unfold step3 at 1. rewrite fold_left_app. apply orGroups_keep_matches.
  fold (step3 counterpartyFields (before ++ [(groupId, orFields)])
          (step2 sumsubFields counterpartyOrGroups
             (step1 sumsubFields counterpartyFields))).
  fold (afterStep2 sumsubFields counterpartyFields counterpartyOrGroups).
  rewrite Hstep. cbn. rewrite elem_of_app, list_elem_of_singleton. by right.
Qed.

(** C3 on a run: the sumsub group {id_document_number, customer_id} against
    the counterparty's mandatory {full_name, customer_id}, [full_name] being
    claimed by step 1: [customer_id] resolves the group. *)
Lemma C3_step3_witness :
  step3 ["full_name"; "customer_id"]
    ([] ++ [("or_group_0", ["id_document_number"; "customer_id"])])
    (afterStep2 ["full_name"] ["full_name"; "customer_id"] [])
  = {| fieldMatches :=
         [exactMatch "full_name"; orGroupMatch "customer_id" "or_group_0"];
       matchedSumsubFields := ["full_name"; "customer_id"];
       matchedCounterpartyFields := ["full_name"; "customer_id"];
       orGroupMatches := [("or_group_0", "customer_id")] |}.
Proof.
  apply (C3_step3_first_free_field
           ["full_name"] ["full_name"; "customer_id"]
           [("or_group_0", ["id_document_number"; "customer_id"])] [] OUT
           [] [] "or_group_0" ["id_document_number"; "customer_id"]
           "customer_id");
    reflexivity.
Defined.

(* ================================================================== *)
(** * The shared resolution record                                     *)
(* ================================================================== *)

Lemma elem_of_assign {V} (o : Obj V) k v k' v' :
  (k', v') ∈ Js.set o k v → (k', v') ∈ o ∨ (k', v') = (k, v).
Proof.
  induction o as [|[k0 v0] o IH]; simpl.
  - rewrite list_elem_of_singleton. auto.
  - destruct (decide (k0 = k)) as [->|Hne]; rewrite !elem_of_cons.
    + intros [?|?]; auto.
    + intros [?|?]; auto. destruct IH; auto.
Qed.

(** A step does not touch a non-empty resolution that is on record, whatever
    the group it works on. *)
Lemma orGroupStep_keeps_resolution fieldSet st entry g v :
  Js.get (orGroupMatches st) g = Some v → v ≠ "" →
  Js.get (orGroupMatches (orGroupStep fieldSet st entry)) g = Some v.
Proof.
  destruct entry as [groupId orFields]. intros Hget Hne.
  assert (Js.truthy (Js.get (orGroupMatches st) g) = true) as Htruthy.
  { rewrite Hget. unfold Js.truthy. by rewrite bool_decide_false. }
  destruct (orGroupStep_case fieldSet st groupId orFields)
    as [ | f Hskip _ _ _ | Hskip _ _ _ _]; [done| |];
    cbn; rewrite get_set_ne; congruence.
Qed.

Lemma orGroups_keep_resolution fieldSet groups st g v :
  Js.get (orGroupMatches st) g = Some v → v ≠ "" →
  Js.get (orGroupMatches (fold_left (orGroupStep fieldSet) groups st)) g = Some v.
Proof.
  intros Hget Hne.
  apply (fold_left_invariant (λ st, Js.get (orGroupMatches st) g = Some v));
    [done|].
  intros. by apply orGroupStep_keeps_resolution.
Qed.

(** While a non-empty resolution is on record for [g], no step appends a match
    carrying [g]. *)
Lemma orGroupStep_no_match_for_resolved fieldSet st entry g v m :
  Js.get (orGroupMatches st) g = Some v → v ≠ "" →
  m ∈ fieldMatches (orGroupStep fieldSet st entry) →
  orGroupId m = Some g →
  m ∈ fieldMatches st.
Proof.
  destruct entry as [groupId orFields]. intros Hget Hne.
  assert (Js.truthy (Js.get (orGroupMatches st) g) = true) as Htruthy.
  { rewrite Hget. unfold Js.truthy. by rewrite bool_decide_false. }
  destruct (orGroupStep_case fieldSet st groupId orFields)
    as [ | f Hskip _ _ _ | Hskip _ _ _ _]; [done| |];
    cbn; rewrite ?elem_of_app, ?list_elem_of_singleton;
    intros Hm Hid; destruct_or?; subst; try done;
    cbn in Hid; congruence.
Qed.

Lemma orGroups_no_match_for_resolved fieldSet groups st g v m :
  Js.get (orGroupMatches st) g = Some v → v ≠ "" →
  m ∈ fieldMatches (fold_left (orGroupStep fieldSet) groups st) →
  orGroupId m = Some g →
  m ∈ fieldMatches st.
Proof.
  intros Hget Hne Hm Hid. revert Hm.
  apply (fold_left_invariant
           (λ st', Js.get (orGroupMatches st') g = Some v
                   ∧ (m ∈ fieldMatches st' → m ∈ fieldMatches st))); [auto|].
  intros st' entry _ [Hget' IH]. split.
  - by apply orGroupStep_keeps_resolution.
  - intros Hm. apply IH. by eapply orGroupStep_no_match_for_resolved.
Qed.

(** The resolution record is a dictionary: one value per identifier. *)
Lemma orGroupStep_NoDup_keys fieldSet st entry :
  NoDup (orGroupMatches st).*1 →
  NoDup (orGroupMatches (orGroupStep fieldSet st entry)).*1.
Proof.
  destruct entry as [groupId orFields]. intros Hnd.
  destruct (orGroupStep_case fieldSet st groupId orFields); [done| |];
    cbn; by apply set_NoDup_keys.
Qed.

Lemma or_group_matches_NoDup_keys
  (sumsubFields counterpartyFields : list string)
  (sumsubOrGroups counterpartyOrGroups : Obj (list string)) (dir : Direction) :
  NoDup (or_group_matches
           (analyzeFieldDifferencesWithOrGroups sumsubFields counterpartyFields
              sumsubOrGroups counterpartyOrGroups dir)).*1.
Proof.
  unfold analyzeFieldDifferencesWithOrGroups.
  rewrite step5_or_group_matches, step4_orGroupMatches.
  unfold step3, step2.
  apply (fold_left_invariant (λ st, NoDup (orGroupMatches st).*1));
    [|intros; by apply orGroupStep_NoDup_keys].
  apply (fold_left_invariant (λ st, NoDup (orGroupMatches st).*1));
    [|intros; by apply orGroupStep_NoDup_keys].
  unfold step1.
  apply (fold_left_invariant (λ st, NoDup (orGroupMatches st).*1));
    [apply NoDup_nil_2|].
  intros st f _ Hnd. unfold exactStep. by destruct (Js.has _ f).
Qed.

(** C4 (as amended): when step 2 has recorded a non-empty resolution under an
    identifier, step 3 skips every sumsub OR-group carrying that identifier
    (the step leaves the state unchanged, even if one of the group's fields
    is in the counterparty's mandatory set), the returned resolution for the
    identifier is still the one step 2 recorded, every returned match that
    carries the identifier was already recorded by step 2, and the returned
    record holds one value per identifier. *)
Theorem C4_resolved_identifier_skipped_in_step3
  (sumsubFields counterpartyFields : list string)
  (sumsubOrGroups counterpartyOrGroups : Obj (list string))
  (dir : Direction) (groupId value : string) :
  Js.get (orGroupMatches
            (afterStep2 sumsubFields counterpartyFields counterpartyOrGroups))
         groupId = Some value →
  value ≠ "" →
  (∀ before orFields after,
      sumsubOrGroups = before ++ (groupId, orFields) :: after →
      let st := step3 counterpartyFields before
                  (afterStep2 sumsubFields counterpartyFields
                     counterpartyOrGroups) in
      orGroupStep (Js.newSet counterpartyFields) st (groupId, orFields) = st)
  ∧ Js.get (or_group_matches
              (analyzeFieldDifferencesWithOrGroups sumsubFields
                 counterpartyFields sumsubOrGroups counterpartyOrGroups dir))
           groupId = Some value
  ∧ (∀ m,
       m ∈ field_matches
             (analyzeFieldDifferencesWithOrGroups sumsubFields
                counterpartyFields sumsubOrGroups counterpartyOrGroups dir) →
       orGroupId m = Some groupId →
       m ∈ fieldMatches
             (afterStep2 sumsubFields counterpartyFields counterpartyOrGroups))
  ∧ NoDup (or_group_matches
             (analyzeFieldDifferencesWithOrGroups sumsubFields
                counterpartyFields sumsubOrGroups counterpartyOrGroups dir)).*1.
Proof.
  intros Hget Hne. split_and!; [| | |apply or_group_matches_NoDup_keys].
  - intros before orFields after _ st.
    apply orGroupStep_skip.
    unfold st, step3. rewrite (orGroups_keep_resolution _ _ _ _ value) by done.
    unfold Js.truthy. by rewrite bool_decide_false.
  - unfold analyzeFieldDifferencesWithOrGroups.
    rewrite step5_or_group_matches, step4_orGroupMatches.
    unfold step3. by apply orGroups_keep_resolution.
  - intros m. unfold analyzeFieldDifferencesWithOrGroups.
    rewrite step5_field_matches. intros Hm Hid.
    apply step4_new_matches in Hm as [Hm|Hnone]; [|congruence].
    unfold step3 in Hm.
    by eapply orGroups_no_match_for_resolved.
Qed.

(** C4 on a run: the counterparty's [or_group_0] is resolved by [customer_id]
    in step 2; the sumsub group [or_group_0 = {x}] is skipped although [x] is
    in the counterparty's mandatory set. *)
Lemma C4_skipped_witness :
  orGroupStep (Js.newSet ["x"])
    (step3 ["x"] [] (afterStep2 ["customer_id"] ["x"]
                       [("or_group_0", ["customer_id"])]))
    ("or_group_0", ["x"])
  = step3 ["x"] [] (afterStep2 ["customer_id"] ["x"]
                      [("or_group_0", ["customer_id"])])
  ∧ Js.get (or_group_matches
              (analyzeFieldDifferencesWithOrGroups ["customer_id"] ["x"]
                 [("or_group_0", ["x"])] [("or_group_0", ["customer_id"])] OUT))
           "or_group_0" = Some "customer_id".
Proof.
  assert ("customer_id" ≠ "") as Hne by discriminate.
  pose proof (C4_resolved_identifier_skipped_in_step3
                ["customer_id"] ["x"]
                [("or_group_0", ["x"])] [("or_group_0", ["customer_id"])]
                OUT "or_group_0" "customer_id" eq_refl Hne)
    as (Hskip & Hres & _ & _).
  split; [|exact Hres].
  exact (Hskip [] ["x"] [] eq_refl).
Defined.

(** C4 as stated fails when the resolution recorded by step 2 is the empty
    field key: the counterparty's group [or_group_0] is resolved by the field
    [""], the skip test reads that record as unset, step 3 matches the sumsub
    group [or_group_0] on field [a], and the resolution of [or_group_0] is
    replaced. *)
Lemma C4_empty_key_counterexample :
  let st2 := afterStep2 [""] ["a"] [("or_group_0", [""])] in
  let analysis :=
    analyzeFieldDifferencesWithOrGroups [""] ["a"]
      [("or_group_0", ["a"])] [("or_group_0", [""])] OUT in
  Js.get (orGroupMatches st2) "or_group_0" = Some ""
  ∧ fieldMatches st2 = [orGroupMatch "" "or_group_0"]
  ∧ orGroupStep (Js.newSet ["a"]) st2 ("or_group_0", ["a"]) ≠ st2
  ∧ field_matches analysis
    = [orGroupMatch "" "or_group_0"; orGroupMatch "a" "or_group_0"]
  ∧ Js.get (or_group_matches analysis) "or_group_0" = Some "a".
Proof. vm_compute. split_and!; try done. Qed.

(* ================================================================== *)
(** * What a resolution can be                                         *)
(* ================================================================== *)




(* ================================================================== *)
(** * Classification                                                   *)
(* ================================================================== *)

Lemma extractStep_NoDup st group :
  NoDup (ex_requiredFields st) → NoDup (ex_requiredFields (extractStep st group)).
Proof.
  intros Hnd. unfold extractStep. destruct (logic group); cbn; [|done].
  by apply NoDup_fold_add.
Qed.

Lemma extract_requiredFields_NoDup reqs :
  NoDup (requiredFields (extractRequiredFieldsWithOrLogic reqs)).
Proof.
  unfold extractRequiredFieldsWithOrLogic. cbn.
  apply (fold_left_invariant (λ st, NoDup (ex_requiredFields st)));
    [apply NoDup_nil_2|].
  intros. by apply extractStep_NoDup.
Qed.

(** [Array.from(b).every(field => a.has(field))] on two sets built from
    arrays: inclusion of the arrays' contents. *)
Lemma every_has_spec (a b : list string) :
  forallb (Js.has (Js.newSet a)) (Js.newSet b) = true ↔ (∀ f, f ∈ b → f ∈ a).
Proof.
  rewrite forallb_forall. split.
  - intros H f Hf. rewrite <- (elem_of_newSet a), <- has_true. apply H.
    rewrite <- list_elem_of_In, elem_of_newSet. done.
  - intros H f Hf. rewrite <- list_elem_of_In, elem_of_newSet in Hf.
    rewrite has_true, elem_of_newSet. by apply H.
Qed.

Lemma every_has_ext (a a' b b' : list string) :
  sameFieldSet a a' → sameFieldSet b b' →
  forallb (Js.has (Js.newSet a)) (Js.newSet b)
  = forallb (Js.has (Js.newSet a')) (Js.newSet b').
Proof.
  intros Ha Hb. apply eq_true_iff_eq. rewrite !every_has_spec.
  unfold sameFieldSet in *. split; intros H f Hf; apply Ha, H, Hb, Hf.
Qed.

Lemma sameFieldSet_length (l1 l2 : list string) :
  NoDup l1 → NoDup l2 → sameFieldSet l1 l2 → length l1 = length l2.
Proof.
  intros H1 H2 Hsame. apply Permutation_length. by apply NoDup_Permutation.
Qed.

(** The status reads its two arrays as sets as long as they are
    duplicate-free, as extracted mandatory fields are. *)
Lemma determineComplianceStatus_ext (s s' c c' : list string) dir :
  NoDup s → NoDup s' → NoDup c → NoDup c' →
  sameFieldSet s s' → sameFieldSet c c' →
  determineComplianceStatus s c dir = determineComplianceStatus s' c' dir.
Proof.
  intros Hs Hs' Hc Hc' Hss Hcc. unfold determineComplianceStatus.
  rewrite (every_has_ext s s' c c'), (every_has_ext c c' s s') by done.
  by rewrite (sameFieldSet_length s s'), (sameFieldSet_length c c').
Qed.

(** What a returned result is made of. *)
Lemma calculateCompliance_Return table input result :
  calculateCompliance table input = Return result →
  ∃ sumsubConfig counterpartyConfig,
    table !! sumsub_vasp_country input = Some sumsubConfig
    ∧ table !! counterparty_vasp_country input = Some counterpartyConfig
    ∧ let sumsubReqs :=
        selectedTier sumsubConfig (customer_type input) (transfer_amount input) in
      let counterpartyReqs :=
        selectedTier counterpartyConfig (customer_type input)
          (transfer_amount input) in
      let sumsubExtracted :=
        extractRequiredFieldsWithOrLogic (requirements sumsubReqs) in
      let counterpartyExtracted :=
        extractRequiredFieldsWithOrLogic (requirements counterpartyReqs) in
      result =
      {| sumsub_requirements := summarize sumsubReqs;
         counterparty_requirements := summarize counterpartyReqs;
         compliance_status :=
           determineComplianceStatus (requiredFields sumsubExtracted)
             (requiredFields counterpartyExtracted) (transfer_direction input);
         result_currency := currency sumsubConfig;
         threshold_met :=
           PrimFloat.leb (threshold sumsubConfig) (transfer_amount input);
         converted_amount :=
           convertToUSD (transfer_amount input) (currency sumsubConfig);
         field_analysis :=
           analyzeFieldDifferencesWithOrGroups
             (requiredFields sumsubExtracted)
             (requiredFields counterpartyExtracted)
             (orGroups sumsubExtracted) (orGroups counterpartyExtracted)
             (transfer_direction input) |}.
Proof.
  unfold calculateCompliance. destruct (_ || _); [done|].
  destruct (table !! sumsub_vasp_country input) as [sc|]; [|done].
  destruct (table !! counterparty_vasp_country input) as [cc|]; [|done].
  intros [= <-]. exists sc, cc. split_and!; [done..|].
  unfold selectedTier, summarize.
  by destruct (PrimFloat.leb (threshold sc) _), (PrimFloat.leb (threshold cc) _).
Qed.

(** C5: two evaluations whose two mandatory field sets agree (as sets) and
    whose directions agree return the same classification, whatever their
    jurisdiction tables, OR-groups, amounts and customer types are. *)
Theorem C5_status_depends_on_mandatory_sets_only
  (table1 table2 : gmap string CountryConfig)
  (input1 input2 : TransactionInput) (result1 result2 : ComplianceResult) :
  calculateCompliance table1 input1 = Return result1 →
  calculateCompliance table2 input2 = Return result2 →
  sameFieldSet (required_fields (sumsub_requirements result1))
               (required_fields (sumsub_requirements result2)) →
  sameFieldSet (required_fields (counterparty_requirements result1))
               (required_fields (counterparty_requirements result2)) →
  transfer_direction input1 = transfer_direction input2 →
  compliance_status result1 = compliance_status result2.
Proof.
  intros (sc1 & cc1 & _ & _ & ->)%calculateCompliance_Return
         (sc2 & cc2 & _ & _ & ->)%calculateCompliance_Return.
  cbn. intros Hs Hc ->.
  apply determineComplianceStatus_ext;
    try apply extract_requiredFields_NoDup; assumption.
Qed.

(** C5 on two runs from Germany to the EU: with the shipped table the
    alternative-identification group is resolved by [customer_id]; with the
    table that has no OR-group nothing is resolved; the classifications are
    the same. *)
Lemma C5_status_witness :
  ∃ result1 result2,
    calculateCompliance shippedCountryConfigs (transaction "DEU" "EU" OUT 500)
    = Return result1
    ∧ calculateCompliance tableWithoutOrGroups (transaction "DEU" "EU" OUT 700)
      = Return result2
    ∧ or_group_matches (field_analysis result1) = [("or_group_0", "customer_id")]
    ∧ or_group_matches (field_analysis result2) = []
    ∧ compliance_status result1 = compliance_status result2.
Proof.
  eexists _, _. split_and!; [reflexivity | reflexivity | reflexivity | reflexivity |].
  eapply (C5_status_depends_on_mandatory_sets_only
            shippedCountryConfigs tableWithoutOrGroups
            (transaction "DEU" "EU" OUT 500) (transaction "DEU" "EU" OUT 700));
    [reflexivity | reflexivity | | | reflexivity]; intros f.
  - change (f ∈ ["full_name"; "residential_address"; "wallet_address"]
            ↔ f ∈ ["wallet_address"; "full_name"; "residential_address"]).
    list_membership.
  - change (f ∈ ["full_name"; "wallet_address"; "customer_id"]
            ↔ f ∈ ["full_name"; "wallet_address"; "customer_id"]).
    done.
Defined.

(* ================================================================== *)
(** * The orchestrator                                                 *)
(* ================================================================== *)

Lemma calculateCompliance_configured table input sumsubConfig counterpartyConfig :
  table !! sumsub_vasp_country input = Some sumsubConfig →
  table !! counterparty_vasp_country input = Some counterpartyConfig →
  ∃ result, calculateCompliance table input = Return result.
Proof.
  intros Hs Hc. unfold calculateCompliance.
  rewrite (truthyMember_entry _ _ _ Hs), (truthyMember_entry _ _ _ Hc).
  rewrite Hs, Hc. by eexists.
Qed.

(** The guard of the call: it throws the configuration error exactly when
    one of the two codes has no entry and names no inherited member. *)
Lemma calculateCompliance_guard table input :
  calculateCompliance table input = Throw "Invalid country configuration"
  ↔ (table !! sumsub_vasp_country input = None
     ∧ (sumsub_vasp_country input ∉ Js.objectPrototype))
    ∨ (table !! counterparty_vasp_country input = None
       ∧ (counterparty_vasp_country input ∉ Js.objectPrototype)).
Proof.
  unfold calculateCompliance.
  destruct (Js.truthyMember table (sumsub_vasp_country input)) eqn:Hs;
    destruct (Js.truthyMember table (counterparty_vasp_country input)) eqn:Hc;
    cbn [negb orb].
  - apply truthyMember_true in Hs, Hc. split.
    + by destruct (table !! sumsub_vasp_country input),
                  (table !! counterparty_vasp_country input).
    + intros [[Hnone Hout] | [Hnone Hout]].
      * destruct Hs as [[? Hsome] | ?]; [congruence | done].
      * destruct Hc as [[? Hsome] | ?]; [congruence | done].
  - apply truthyMember_false in Hc. split; [intros _; by right | done].
  - apply truthyMember_false in Hs. split; [intros _; by left | done].
  - apply truthyMember_false in Hs. split; [intros _; by left | done].
Qed.

(** C8: a country code that has no entry in the table but names a member
    inherited from [Object.prototype] passes the guard of the call.  When
    each of the two codes has an entry or names such a member, and one of
    them has no entry, the call ends in a TypeError and not in the
    configuration error. *)
Theorem C8_inherited_code_passes_the_guard
  (table : gmap string CountryConfig) (input : TransactionInput) :
  is_Some (table !! sumsub_vasp_country input)
  ∨ sumsub_vasp_country input ∈ Js.objectPrototype →
  is_Some (table !! counterparty_vasp_country input)
  ∨ counterparty_vasp_country input ∈ Js.objectPrototype →
  table !! sumsub_vasp_country input = None
  ∨ table !! counterparty_vasp_country input = None →
  calculateCompliance table input = TypeError.
Proof.
  intros Hs%truthyMember_true Hc%truthyMember_true Hnone.
  unfold calculateCompliance. rewrite Hs, Hc. cbn [negb orb].
  destruct Hnone as [-> | Hnone]; [done|].
  rewrite Hnone. by destruct (table !! sumsub_vasp_country input).
Qed.

(** C8 on the shipped table: the origin code "constructor" has no entry, and
    the call ends in a TypeError. *)
Lemma C8_constructor_witness :
  calculateCompliance shippedCountryConfigs
    (transaction "constructor" "EU" OUT 500) = TypeError.
Proof.
  apply (C8_inherited_code_passes_the_guard shippedCountryConfigs
           (transaction "constructor" "EU" OUT 500)).
  - right. cbn. by left.
  - left. by exists configEU.
  - left. reflexivity.
Defined.

(** An ordinary unknown code, on either side, is caught by the guard. *)
Example unknown_country_is_caught :
  calculateCompliance shippedCountryConfigs (transaction "EU" "XX" OUT 800)
  = Throw "Invalid country configuration"
  ∧ calculateCompliance shippedCountryConfigs (transaction "XX" "EU" OUT 800)
    = Throw "Invalid country configuration".
Proof. by split. Qed.

(** C9: with both configurations present the call returns; each party's
    summary is that of its above-threshold rule set exactly when the amount is
    at least that party's own threshold (and of its below-threshold rule set
    otherwise), the analysis is run on the rule sets so selected, and
    [threshold_met] is the comparison of the amount with the origin's
    threshold. *)
Theorem C9_threshold_tier_selection
  (table : gmap string CountryConfig) (input : TransactionInput)
  (sumsubConfig counterpartyConfig : CountryConfig) :
  table !! sumsub_vasp_country input = Some sumsubConfig →
  table !! counterparty_vasp_country input = Some counterpartyConfig →
  ∃ result,
    calculateCompliance table input = Return result
    ∧ sumsub_requirements result
      = summarize
          (if PrimFloat.leb (threshold sumsubConfig) (transfer_amount input)
           then above_threshold (tiersOf sumsubConfig (customer_type input))
           else below_threshold (tiersOf sumsubConfig (customer_type input)))
    ∧ counterparty_requirements result
      = summarize
          (if PrimFloat.leb (threshold counterpartyConfig) (transfer_amount input)
           then above_threshold (tiersOf counterpartyConfig (customer_type input))
           else below_threshold (tiersOf counterpartyConfig (customer_type input)))
    ∧ field_analysis result
      = (let sumsubExtracted :=
           extractRequiredFieldsWithOrLogic
             (requirements
                (selectedTier sumsubConfig (customer_type input)
                   (transfer_amount input))) in
         let counterpartyExtracted :=
           extractRequiredFieldsWithOrLogic
             (requirements
                (selectedTier counterpartyConfig (customer_type input)
                   (transfer_amount input))) in
         analyzeFieldDifferencesWithOrGroups
           (requiredFields sumsubExtracted)
           (requiredFields counterpartyExtracted)
           (orGroups sumsubExtracted) (orGroups counterpartyExtracted)
           (transfer_direction input))
    ∧ threshold_met result
      = PrimFloat.leb (threshold sumsubConfig) (transfer_amount input).
Proof.
  intros Hs Hc.
  destruct (calculateCompliance_configured table input _ _ Hs Hc)
    as [result Hresult].
  exists result. split; [done|].
  apply calculateCompliance_Return in Hresult as (sc & cc & Hs' & Hc' & ->).
  rewrite Hs in Hs'. rewrite Hc in Hc'.
  injection Hs' as <-. injection Hc' as <-. done.
Qed.

(** C9 on a run from the EU (threshold 1000) to Germany (threshold 0) with
    amount 500: below for the origin, above for the counterparty, and
    [threshold_met] is the origin's comparison. *)
Lemma C9_threshold_witness :
  ∃ result,
    calculateCompliance shippedCountryConfigs (transaction "EU" "DEU" OUT 500)
    = Return result
    ∧ sumsub_requirements result
      = summarize (below_threshold (individual configEU))
    ∧ counterparty_requirements result
      = summarize (above_threshold (individual configDEU))
    ∧ threshold_met result = false.
Proof.
  destruct (C9_threshold_tier_selection shippedCountryConfigs
              (transaction "EU" "DEU" OUT 500) configEU configDEU
              eq_refl eq_refl)
    as (result & Hresult & Hsumsub & Hcounterparty & _ & Hmet).
  exists result. split_and!; [exact Hresult | exact Hsumsub
                             | exact Hcounterparty | exact Hmet].
Defined.

(* ================================================================== *)
(** * Direction inversion                                              *)
(* ================================================================== *)

Lemma unmatched_cons f l matched :
  unmatched (f :: l) matched
  = if Js.has matched f then unmatched l matched else f :: unmatched l matched.
Proof.
  unfold unmatched. rewrite filter_cons.
  destruct (Js.has matched f); by case_decide.
Qed.

Lemma has_singleton_same (x : string) : Js.has [x] x = true.
Proof. apply has_true. by left. Qed.

Lemma has_singleton_other (x y : string) : x ≠ y → Js.has [x] y = false.
Proof. intros Hxy. apply has_false. by intros ->%list_elem_of_singleton. Qed.

Lemma step1_pair (x y : string) (sumsubFields : list string) :
  x ≠ y →
  sumsubFields = [x; y] ∨ sumsubFields = [y; x] →
  step1 sumsubFields [x] = onlyClaimed x.
Proof.
  intros Hxy [-> | ->]; unfold step1; cbn [fold_left];
    change (Js.newSet [x]) with [x]; unfold exactStep;
    rewrite ?has_singleton_same, ?(has_singleton_other x y) by done; cbn;
    by rewrite ?has_singleton_same, ?(has_singleton_other x y) by done.
Qed.

Lemma dob_birthplace_not_both (x : string) :
  "date_of_birth" ∈ [x] → "birthplace" ∈ [x] → False.
Proof. intros Hd Hb. apply list_elem_of_singleton in Hd, Hb. congruence. Qed.

(** Step 2 finds nothing to do when no counterparty group lists [y]. *)
Lemma step2_pair (x y : string) (sumsubFields : list string)
  (counterpartyOrGroups : Obj (list string)) :
  sumsubFields = [x; y] ∨ sumsubFields = [y; x] →
  (∀ groupId orFields, (groupId, orFields) ∈ counterpartyOrGroups → y ∉ orFields) →
  step2 sumsubFields counterpartyOrGroups (onlyClaimed x) = onlyClaimed x.
Proof.
  intros Hpair Hnoy. unfold step2.
  apply (fold_left_invariant (λ st, st = onlyClaimed x)); [done|].
  intros st [groupId orFields] Hin ->.
  assert (∀ f, f ∈ Js.newSet sumsubFields → f = x ∨ f = y) as Hset.
  { intros f Hf. rewrite elem_of_newSet in Hf. destruct Hpair as [-> | ->];
      rewrite !elem_of_cons, elem_of_nil in Hf; tauto. }
  destruct (orGroupStep_case (Js.newSet sumsubFields) (onlyClaimed x)
              groupId orFields)
    as [ | f _ Hf HS Hfree | _ Hdeu Hd Hb Hclaimed]; [done| |].
  - exfalso. destruct (Hset f HS) as [-> | ->].
    + apply Hfree. by left.
    + by apply (Hnoy groupId orFields).
  - exfalso. apply isDeuOrGroup_spec in Hdeu as (_ & _ & _ & Hd' & Hb').
    apply (dob_birthplace_not_both x); by apply Hclaimed.
Qed.

(** Step 3 finds nothing either: the counterparty's only field is claimed. *)
Lemma step3_pair (x : string) (sumsubOrGroups : Obj (list string)) :
  step3 [x] sumsubOrGroups (onlyClaimed x) = onlyClaimed x.
Proof.
  unfold step3. change (Js.newSet [x]) with [x].
  apply (fold_left_invariant (λ st, st = onlyClaimed x)); [done|].
  intros st [groupId orFields] Hin ->.
  destruct (orGroupStep_case [x] (onlyClaimed x) groupId orFields)
    as [ | f _ Hf HS Hfree | _ Hdeu Hd Hb Hclaimed]; [done| |].
  - exfalso. by apply Hfree.
  - exfalso. by apply (dob_birthplace_not_both x).
Qed.

(** Step 4 has no free counterparty field to pair an alias with. *)
Lemma step4_pair (x : string) (sumsubFields : list string) :
  step4 sumsubFields [x] (onlyClaimed x) = onlyClaimed x.
Proof.
  unfold step4.
  apply (fold_left_invariant (λ st, st = onlyClaimed x)); [done|].
  intros st m Hm ->.
  apply findSemanticMatches_spec in Hm as (_ & Hc & _).
  apply list_elem_of_singleton in Hc. unfold semanticStep. cbn.
  by rewrite Hc, has_singleton_same, andb_false_r.
Qed.

Lemma unmatched_pair (x y : string) (sumsubFields : list string) :
  x ≠ y →
  sumsubFields = [x; y] ∨ sumsubFields = [y; x] →
  unmatched sumsubFields [x] = [y] ∧ unmatched [x] [x] = [].
Proof.
  intros Hxy [-> | ->]; split;
    rewrite ?unmatched_cons, ?has_singleton_same,
      ?(has_singleton_other x y) by done; done.
Qed.

Lemma status_pair (x y : string) (sumsubFields : list string) :
  x ≠ y →
  sumsubFields = [x; y] ∨ sumsubFields = [y; x] →
  determineComplianceStatus sumsubFields [x] OUT = overcompliance
  ∧ determineComplianceStatus sumsubFields [x] IN = sender_may_not_provide.
Proof.
  intros Hxy Hpair. unfold determineComplianceStatus.
  assert (length sumsubFields = 2) as Hlen by by destruct Hpair as [-> | ->].
  assert (forallb (Js.has (Js.newSet sumsubFields)) (Js.newSet [x]) = true)
    as ->.
  { apply every_has_spec. intros f ->%list_elem_of_singleton.
    destruct Hpair as [-> | ->]; list_membership. }
  assert (forallb (Js.has (Js.newSet [x])) (Js.newSet sumsubFields) = false)
    as ->.
  { apply not_true_is_false. rewrite every_has_spec. intros Hall.
    apply Hxy. symmetry. apply list_elem_of_singleton, Hall.
    destruct Hpair as [-> | ->]; list_membership. }
  rewrite Hlen. by cbn.
Qed.

(** C6: for the mandatory sets A = {x, y} and B = {x} with x and y distinct,
    and no OR-group of the counterparty listing y (in particular with no
    OR-groups at all), direction OUT classifies as overcompliance with
    [sumsub_sends_more = [y]] and an empty [counterparty_sends_more], and
    direction IN classifies as sender_may_not_provide with
    [missing_fields = [y]].  No assumption on semantic aliases is needed:
    the counterparty's only field is already claimed by the exact match. *)
Theorem C6_direction_inversion
  (x y : string) (sumsubFields : list string)
  (sumsubOrGroups counterpartyOrGroups : Obj (list string)) :
  x ≠ y →
  sumsubFields = [x; y] ∨ sumsubFields = [y; x] →
  (∀ groupId orFields,
     (groupId, orFields) ∈ counterpartyOrGroups → y ∉ orFields) →
  let outbound :=
    analyzeFieldDifferencesWithOrGroups sumsubFields [x]
      sumsubOrGroups counterpartyOrGroups OUT in
  let inbound :=
    analyzeFieldDifferencesWithOrGroups sumsubFields [x]
      sumsubOrGroups counterpartyOrGroups IN in
  determineComplianceStatus sumsubFields [x] OUT = overcompliance
  ∧ sumsub_sends_more outbound = [y]
  ∧ counterparty_sends_more outbound = []
  ∧ determineComplianceStatus sumsubFields [x] IN = sender_may_not_provide
  ∧ missing_fields inbound = [y].
Proof.
  intros Hxy Hpair Hnoy outbound inbound.
  destruct (status_pair x y sumsubFields Hxy Hpair) as [Hout Hin].
  destruct (unmatched_pair x y sumsubFields Hxy Hpair) as [Hextra _].
  unfold outbound, inbound, analyzeFieldDifferencesWithOrGroups.
  rewrite (step1_pair x y sumsubFields Hxy Hpair).
  rewrite (step2_pair x y sumsubFields counterpartyOrGroups Hpair Hnoy).
  rewrite step3_pair, step4_pair.
  cbn. by rewrite Hextra.
Qed.

(** C6 on the keys [full_name] and [nationality], with OR-groups on both
    sides. *)
Lemma C6_direction_witness :
  determineComplianceStatus ["full_name"; "nationality"] ["full_name"] OUT
  = overcompliance
  ∧ sumsub_sends_more
      (analyzeFieldDifferencesWithOrGroups ["full_name"; "nationality"]
         ["full_name"] [("or_group_0", ["nationality"; "full_name"])]
         [("or_group_0", ["customer_id"])] OUT)
    = ["nationality"]
  ∧ counterparty_sends_more
      (analyzeFieldDifferencesWithOrGroups ["full_name"; "nationality"]
         ["full_name"] [("or_group_0", ["nationality"; "full_name"])]
         [("or_group_0", ["customer_id"])] OUT)
    = []
  ∧ determineComplianceStatus ["full_name"; "nationality"] ["full_name"] IN
    = sender_may_not_provide
  ∧ missing_fields
      (analyzeFieldDifferencesWithOrGroups ["full_name"; "nationality"]
         ["full_name"] [("or_group_0", ["nationality"; "full_name"])]
         [("or_group_0", ["customer_id"])] IN)
    = ["nationality"].
Proof.
  apply (C6_direction_inversion "full_name" "nationality"
           ["full_name"; "nationality"]
           [("or_group_0", ["nationality"; "full_name"])]
           [("or_group_0", ["customer_id"])]).
  - discriminate.
  - by left.
  - intros groupId orFields [= _ ->]%list_elem_of_singleton.
    rewrite list_elem_of_singleton. discriminate.
Defined.

(* ================================================================== *)
(** * Further properties: the extractor on any rule set                *)
(* ================================================================== *)

Lemma numberOrGroups_imap (n : nat) groups :
  numberOrGroups n groups
  = imap (λ i group, (groupIdOf (n + i), fields group)) (orGroupsOf groups).
Proof.
  revert n. unfold orGroupsOf.
  induction groups as [|g rest IH]; intros n; [done|].
  cbn [numberOrGroups]. rewrite filter_cons.
  destruct (decide (logic g = OR)) as [Hg|Hg].
  - rewrite Hg. cbn [imap]. rewrite Nat.add_0_r, IH.
    f_equal. apply imap_ext. intros i x _. cbn. f_equal. f_equal. lia.
  - destruct (logic g); [apply IH | done].
Qed.

Lemma numberOrGroups_get (n j : nat) groups :
  Js.get (numberOrGroups n groups) (groupIdOf j)
  = if decide (n ≤ j)%nat then fields <$> orGroupsOf groups !! (j - n)%nat
    else None.
Proof.
  revert n. unfold orGroupsOf.
  induction groups as [|g rest IH]; intros n.
  - cbn. by case_decide.
  - cbn [numberOrGroups]. rewrite filter_cons.
    destruct (decide (logic g = OR)) as [Hg|Hg];
      [rewrite Hg | destruct (logic g); [apply IH | done]].
    + cbn [Js.get].
      destruct (decide (groupIdOf n = groupIdOf j)) as [Heq|Hne].
      * apply groupIdOf_inj in Heq as ->.
        rewrite decide_True by lia. by rewrite Nat.sub_diag.
      * assert (n ≠ j) by congruence. rewrite IH.
        destruct (decide (n ≤ j)%nat).
        -- rewrite decide_True by lia.
           by replace (j - n)%nat with (S (j - S n)) by lia.
        -- by rewrite decide_False by lia.
Qed.

(** X1: on every rule set the extractor returns, as mandatory fields, the
    set built from the AND groups' fields in order of appearance, and, as
    OR-group table, the OR groups in order of appearance, the one at
    position [i] among them filed under [or_group_<i>] with its field list
    unchanged. *)
Theorem X1_extractor_on_any_rule_set (groups : list RequirementGroup) :
  extractRequiredFieldsWithOrLogic groups
  = {| requiredFields := Js.newSet (flat_map andFields groups);
       orGroups :=
         imap (λ i group, ("or_group_" +:+ Js.numberToString i, fields group))
              (filter (λ group, logic group = OR) groups) |}.
Proof.
  rewrite extract_refines. unfold mandatoryOf. f_equal.
  apply numberOrGroups_imap.
Qed.

(** X2: a field is mandatory exactly when some AND group of the rule set
    lists it; a field that only OR groups list is not; and no mandatory field
    is reported twice. *)
Theorem X2_mandatory_fields_are_the_and_fields
  (groups : list RequirementGroup) :
  (∀ f, f ∈ requiredFields (extractRequiredFieldsWithOrLogic groups)
        ↔ ∃ group, group ∈ groups ∧ logic group = AND ∧ f ∈ fields group)
  ∧ NoDup (requiredFields (extractRequiredFieldsWithOrLogic groups)).
Proof.
  split; [|apply extract_requiredFields_NoDup].
  intros f. rewrite extract_refines. cbn [requiredFields]. unfold mandatoryOf.
  rewrite elem_of_newSet, list_elem_of_In, in_flat_map. split.
  - intros (g & Hg%list_elem_of_In & Hf%list_elem_of_In). exists g.
    unfold andFields in Hf. destruct (logic g); [done|].
    by apply elem_of_nil in Hf.
  - intros (g & Hg & Hand & Hf). exists g. rewrite <- !list_elem_of_In.
    split; [done|]. unfold andFields. by rewrite Hand.
Qed.

(** X3: looking the extracted table up under [or_group_<i>], the key the
    requirements renderer builds for the OR group at position [i], gives that
    group's field list, and nothing when the rule set has no more than [i] OR
    groups; no identifier is used twice. *)
Theorem X3_or_group_lookup_by_position
  (groups : list RequirementGroup) (i : nat) :
  Js.get (orGroups (extractRequiredFieldsWithOrLogic groups))
         ("or_group_" +:+ Js.numberToString i)
  = fields <$> filter (λ group, logic group = OR) groups !! i
  ∧ NoDup (orGroups (extractRequiredFieldsWithOrLogic groups)).*1.
Proof.
  rewrite extract_refines. cbn [orGroups]. split.
  - fold (groupIdOf i). rewrite numberOrGroups_get.
    rewrite decide_True by lia. by rewrite Nat.sub_0_r.
  - apply numberOrGroups_NoDup_keys.
Qed.

(* ================================================================== *)
(** * Further properties: a rule induction over the matcher's run      *)
(* ================================================================== *)

Lemma recordOrField_resolve st groupId orField :
  recordOrField st groupId orField
  = resolve (record st (orGroupMatch orField groupId)) groupId orField.
Proof. reflexivity. Qed.

Lemma recordCombination_resolve st groupId :
  recordCombination st groupId
  = resolve (record (record st (orGroupMatch "date_of_birth" groupId))
                    (orGroupMatch "birthplace" groupId))
            groupId compositeLabel.
Proof. reflexivity. Qed.

(** Whatever holds initially and is kept by the four kinds of update, each
    under the facts the code has checked before it, holds of the final
    state. *)
Lemma run_invariant (P : MatchState → Prop)
  (sumsubFields counterpartyFields : list string)
  (sumsubOrGroups counterpartyOrGroups : Obj (list string)) :
  P initialState →
  (∀ st f,
     P st → f ∈ sumsubFields → f ∈ counterpartyFields →
     P (record st (exactMatch f))) →
  (∀ st groupId orFields f,
     P st →
     ((groupId, orFields) ∈ counterpartyOrGroups ∧ f ∈ sumsubFields)
     ∨ ((groupId, orFields) ∈ sumsubOrGroups ∧ f ∈ counterpartyFields) →
     f ∈ orFields →
     f ∉ matchedSumsubFields st →
     P (resolve (record st (orGroupMatch f groupId)) groupId f)) →
  (∀ st groupId orFields,
     P st →
     ((groupId, orFields) ∈ counterpartyOrGroups
      ∧ "date_of_birth" ∈ sumsubFields ∧ "birthplace" ∈ sumsubFields)
     ∨ ((groupId, orFields) ∈ sumsubOrGroups
        ∧ "date_of_birth" ∈ counterpartyFields
        ∧ "birthplace" ∈ counterpartyFields) →
     isDeuOrGroup orFields = true →
     "date_of_birth" ∈ matchedSumsubFields st →
     "birthplace" ∈ matchedSumsubFields st →
     P (resolve (record (record st (orGroupMatch "date_of_birth" groupId))
                        (orGroupMatch "birthplace" groupId))
                groupId compositeLabel)) →
  (∀ st m,
     P st → m ∈ findSemanticMatches sumsubFields counterpartyFields →
     sumsubField m ∉ matchedSumsubFields st →
     counterpartyField m ∉ matchedCounterpartyFields st →
     P (record st m)) →
  P (finalState sumsubFields counterpartyFields
       sumsubOrGroups counterpartyOrGroups).
Proof.
  intros Hinit Hexact Hsingle Hcombo Hsemantic.
  unfold finalState, step4, step3, step2, step1.
  apply fold_left_invariant.
  2:{ intros st m Hm HP. unfold semanticStep.
      destruct (negb (Js.has (matchedSumsubFields st) (sumsubField m))) eqn:Hs;
        [|done].
      destruct (negb (Js.has (matchedCounterpartyFields st)
                             (counterpartyField m))) eqn:Hc; [|done].
      apply negb_true_iff in Hs, Hc. apply has_false in Hs, Hc.
      by apply Hsemantic. }
  apply fold_left_invariant.
  2:{ intros st [groupId orFields] Hin HP.
      destruct (orGroupStep_case (Js.newSet counterpartyFields) st groupId orFields)
        as [ | f _ Hf HS Hfree | _ Hdeu Hd Hb Hclaimed]; [done| |].
      - rewrite recordOrField_resolve. rewrite elem_of_newSet in HS.
        apply (Hsingle st groupId orFields f); auto.
      - rewrite recordCombination_resolve.
        pose proof Hdeu as (_ & _ & _ & ? & ?)%isDeuOrGroup_spec.
        pose proof Hd as Hd'. pose proof Hb as Hb'.
        rewrite elem_of_newSet in Hd', Hb'.
        apply (Hcombo st groupId orFields); auto. }
  apply fold_left_invariant.
  2:{ intros st [groupId orFields] Hin HP.
      destruct (orGroupStep_case (Js.newSet sumsubFields) st groupId orFields)
        as [ | f _ Hf HS Hfree | _ Hdeu Hd Hb Hclaimed]; [done| |].
      - rewrite recordOrField_resolve. rewrite elem_of_newSet in HS.
        apply (Hsingle st groupId orFields f); auto.
      - rewrite recordCombination_resolve.
        pose proof Hdeu as (_ & _ & _ & ? & ?)%isDeuOrGroup_spec.
        pose proof Hd as Hd'. pose proof Hb as Hb'.
        rewrite elem_of_newSet in Hd', Hb'.
        apply (Hcombo st groupId orFields); auto. }
  apply fold_left_invariant; [done|].
  intros st f Hf HP. unfold exactStep.
  destruct (Js.has (Js.newSet counterpartyFields) f) eqn:Hhas; [|done].
  apply has_true in Hhas. rewrite elem_of_newSet in Hhas.
  by apply (Hexact st f).
Qed.

Lemma analysis_of_finalState sumsubFields counterpartyFields
  sumsubOrGroups counterpartyOrGroups dir :
  analyzeFieldDifferencesWithOrGroups sumsubFields counterpartyFields
    sumsubOrGroups counterpartyOrGroups dir
  = step5 sumsubFields counterpartyFields dir
      (finalState sumsubFields counterpartyFields
         sumsubOrGroups counterpartyOrGroups).
Proof. reflexivity. Qed.

Lemma step5_matching_fields sumsubFields counterpartyFields dir st :
  matching_fields (step5 sumsubFields counterpartyFields dir st)
  = matchedSumsubFields st.
Proof. by destruct dir. Qed.

(* ================================================================== *)
(** * Further properties: what the matcher reports                     *)
(* ================================================================== *)

Lemma findSemanticMatches_elem sumsubFields counterpartyFields m :
  m ∈ findSemanticMatches sumsubFields counterpartyFields ↔
  ∃ f alias,
    m = semanticMatch f alias
    ∧ f ∈ sumsubFields ∧ alias ∈ counterpartyFields
    ∧ alias ∈ default [] (semanticMappings !! f).
Proof.
  unfold findSemanticMatches. rewrite list_elem_of_In, in_flat_map. split.
  - intros (f & Hf%list_elem_of_In & Hm%list_elem_of_In).
    apply list_elem_of_fmap in Hm as (alias & -> & Halias).
    apply list_elem_of_filter in Halias as [Hinc%includes_true Halias].
    by exists f, alias.
  - intros (f & alias & -> & Hf & Hc & Halias). exists f.
    rewrite <- !list_elem_of_In. split; [done|].
    apply list_elem_of_fmap. exists alias. split; [done|].
    apply list_elem_of_filter. split; [by apply includes_true | done].
Qed.

Lemma elem_of_record_matches st m m' :
  m' ∈ fieldMatches (record st m) ↔ m' ∈ fieldMatches st ∨ m' = m.
Proof. cbn. by rewrite elem_of_app, list_elem_of_singleton. Qed.

Lemma justified_run sumsubFields counterpartyFields
  sumsubOrGroups counterpartyOrGroups :
  Forall (Justified sumsubFields counterpartyFields
            sumsubOrGroups counterpartyOrGroups)
         (fieldMatches (finalState sumsubFields counterpartyFields
                          sumsubOrGroups counterpartyOrGroups)).
Proof.
  apply (run_invariant
           (λ st, Forall (Justified sumsubFields counterpartyFields
                            sumsubOrGroups counterpartyOrGroups)
                         (fieldMatches st))).
  - apply Forall_nil_2.
  - intros st f HP Hs Hc. cbn. apply Forall_app. split; [done|].
    apply Forall_singleton. by constructor.
  - intros st g fs f HP Hside Hf _. cbn. apply Forall_app. split; [done|].
    apply Forall_singleton. destruct Hside as [[? ?] | [? ?]].
    + by eapply justified_counterparty_group.
    + by eapply justified_sumsub_group.
  - intros st g fs HP Hside Hdeu _ _. cbn.
    apply isDeuOrGroup_spec in Hdeu as (_ & _ & _ & Hd & Hb).
    rewrite !Forall_app, !Forall_singleton. split_and!; [done| |];
      destruct Hside as [(? & ? & ?) | (? & ? & ?)];
      solve [ by eapply justified_counterparty_group
            | by eapply justified_sumsub_group ].
  - intros st m HP Hm _ _. cbn. apply Forall_app. split; [done|].
    apply Forall_singleton.
    apply findSemanticMatches_elem in Hm as (f & alias & -> & ? & ? & ?).
    by constructor.
Qed.

(** X4: every match of the returned analysis is justified by the inputs: it
    is an exact match on a key that is mandatory on both sides; or an exact,
    alternative-flagged match on a field of an OR-group of one side that is
    mandatory on the other side, carrying that group's identifier; or a
    non-exact, unflagged match of a sumsub mandatory field with one of its
    aliases of the equivalence table that is mandatory on the counterparty
    side. *)
Theorem X4_every_match_is_justified
  (sumsubFields counterpartyFields : list string)
  (sumsubOrGroups counterpartyOrGroups : Obj (list string)) (dir : Direction) :
  Forall (Justified sumsubFields counterpartyFields
            sumsubOrGroups counterpartyOrGroups)
         (field_matches
            (analyzeFieldDifferencesWithOrGroups sumsubFields counterpartyFields
               sumsubOrGroups counterpartyOrGroups dir)).
Proof.
  rewrite analysis_of_finalState, step5_field_matches. apply justified_run.
Qed.

Lemma sidesAgree_record st m : sidesAgree st → sidesAgree (record st m).
Proof.
  intros [Hs Hc]. split; intros f;
    cbn [record matchedSumsubFields matchedCounterpartyFields fieldMatches];
    rewrite elem_of_add, fmap_app, elem_of_app;
    cbn [fmap list_fmap]; rewrite list_elem_of_singleton;
    [rewrite Hs | rewrite Hc]; done.
Qed.

Lemma sidesAgree_run sumsubFields counterpartyFields
  sumsubOrGroups counterpartyOrGroups :
  sidesAgree (finalState sumsubFields counterpartyFields
                sumsubOrGroups counterpartyOrGroups)
  ∧ NoDup (matchedSumsubFields
             (finalState sumsubFields counterpartyFields
                sumsubOrGroups counterpartyOrGroups)).
Proof.
  apply (run_invariant (λ st, sidesAgree st ∧ NoDup (matchedSumsubFields st))).
  - split; [|apply NoDup_nil_2]. split; intros f; cbn; by rewrite !elem_of_nil.
  - intros st f [HP Hnd] _ _. split; [by apply sidesAgree_record|].
    by apply NoDup_add.
  - intros st g fs f [HP Hnd] _ _ _. split.
    + by apply (sidesAgree_record st).
    + by apply NoDup_add.
  - intros st g fs [HP Hnd] _ _ _ _. split.
    + by apply (sidesAgree_record (record st _)), sidesAgree_record.
    + by apply NoDup_add, NoDup_add.
  - intros st m [HP Hnd] _ _ _. split; [by apply sidesAgree_record|].
    by apply NoDup_add.
Qed.

(** X5: the returned [matching_fields] are, without repetition, exactly the
    keys that stand on the sumsub side of some returned match. *)
Theorem X5_matching_fields_are_the_matched_sumsub_keys
  (sumsubFields counterpartyFields : list string)
  (sumsubOrGroups counterpartyOrGroups : Obj (list string)) (dir : Direction) :
  let analysis :=
    analyzeFieldDifferencesWithOrGroups sumsubFields counterpartyFields
      sumsubOrGroups counterpartyOrGroups dir in
  (∀ f, f ∈ matching_fields analysis
        ↔ ∃ m, m ∈ field_matches analysis ∧ sumsubField m = f)
  ∧ NoDup (matching_fields analysis).
Proof.
  intros analysis. unfold analysis.
  rewrite analysis_of_finalState, step5_field_matches, step5_matching_fields.
  destruct (sidesAgree_run sumsubFields counterpartyFields
              sumsubOrGroups counterpartyOrGroups) as [[Hs _] Hnd].
  split; [|done]. intros f. rewrite Hs, list_elem_of_fmap. split.
  - intros (m & -> & Hm). by exists m.
  - intros (m & Hm & <-). by exists m.
Qed.

Lemma assign_keeps_keys {V} (o : Obj V) k v k' :
  k' ∈ (Js.set o k v).*1 ↔ k' ∈ o.*1 ∨ k' = k.
Proof.
  rewrite set_keys. case_decide as Hin.
  - split; [by left | by intros [?| ->]].
  - by rewrite elem_of_app, list_elem_of_singleton.
Qed.

Lemma resolutionsBacked_record st m :
  isOrGroupMatch m = None → orGroupId m = None →
  resolutionsBacked st → resolutionsBacked (record st m).
Proof.
  intros Hflag Hid (Hback & Hflagged & Hplain). split_and!.
  - intros g v Hin. cbn [record orGroupMatches] in Hin.
    destruct (Hback g v Hin) as [? | (-> & ? & ?)].
    + left. apply elem_of_record_matches. by left.
    + right. rewrite !elem_of_record_matches. auto.
  - intros m' [Hm' | ->]%elem_of_record_matches Hm'flag; [|congruence].
    by apply Hflagged.
  - intros m' [Hm' | ->]%elem_of_record_matches Hm'flag; [|done].
    by apply Hplain.
Qed.

Lemma resolutionsBacked_alternative st groupId value ms :
  (∀ m, m ∈ ms → isOrGroupMatch m = Some true ∧ orGroupId m = Some groupId) →
  (orGroupMatch value groupId ∈ ms
   ∨ (value = compositeLabel
      ∧ orGroupMatch "date_of_birth" groupId ∈ ms
      ∧ orGroupMatch "birthplace" groupId ∈ ms)) →
  resolutionsBacked st →
  resolutionsBacked
    {| fieldMatches := fieldMatches st ++ ms;
       matchedSumsubFields :=
         fold_left Js.add (sumsubField <$> ms) (matchedSumsubFields st);
       matchedCounterpartyFields :=
         fold_left Js.add (counterpartyField <$> ms)
                   (matchedCounterpartyFields st);
       orGroupMatches := Js.set (orGroupMatches st) groupId value |}.
Proof.
  intros Hms Hnew (Hback & Hflagged & Hplain). split_and!; cbn.
  - intros g v [Hold | [= -> ->]]%elem_of_assign.
    + destruct (Hback g v Hold) as [? | (-> & ? & ?)].
      * left. apply elem_of_app. by left.
      * right. rewrite !elem_of_app. auto.
    + destruct Hnew as [? | (-> & ? & ?)].
      * left. apply elem_of_app. by right.
      * right. rewrite !elem_of_app. auto.
  - intros m [Hm | Hm]%elem_of_app Hflag.
    + destruct (Hflagged m Hm Hflag) as (g & ? & ?). exists g.
      split; [done|]. apply assign_keeps_keys. by left.
    + exists groupId. split; [by apply Hms|]. apply assign_keeps_keys. by right.
  - intros m [Hm | Hm]%elem_of_app Hflag; [by apply Hplain|].
    apply Hms in Hm as [? _]. congruence.
Qed.

Lemma resolutionsBacked_run sumsubFields counterpartyFields
  sumsubOrGroups counterpartyOrGroups :
  resolutionsBacked (finalState sumsubFields counterpartyFields
                       sumsubOrGroups counterpartyOrGroups).
Proof.
  apply (run_invariant resolutionsBacked).
  - split_and!; cbn; intros; by apply elem_of_nil in H.
  - intros st f HP _ _. by apply resolutionsBacked_record.
  - intros st g fs f HP _ _ _.
    apply (resolutionsBacked_alternative st g f [orGroupMatch f g]); [| |done].
    + by intros m ->%list_elem_of_singleton.
    + left. by apply list_elem_of_singleton.
  - intros st g fs HP _ _ _ _.
    pose proof (resolutionsBacked_alternative st g compositeLabel
                  [orGroupMatch "date_of_birth" g; orGroupMatch "birthplace" g])
      as Halt.
    cbn in Halt. unfold resolve, record. cbn. rewrite <- app_assoc.
    apply Halt; [| |done].
    + intros m. rewrite !elem_of_cons, elem_of_nil. by intros [-> | [-> | []]].
    + right. rewrite !elem_of_cons. auto.
  - intros st m HP Hm _ _.
    apply findSemanticMatches_elem in Hm as (f & alias & -> & _).
    by apply resolutionsBacked_record.
Qed.

(** X6: the resolution record and the alternative-flagged matches of the
    returned analysis agree.  Every resolution is backed by matches carrying
    its identifier: a flagged match on the recorded field, or, for the
    composite label, flagged matches on date_of_birth and on birthplace.
    Every alternative-flagged match carries an identifier that has a
    resolution on record, and an unflagged match carries no identifier. *)
Theorem X6_resolutions_and_flagged_matches_agree
  (sumsubFields counterpartyFields : list string)
  (sumsubOrGroups counterpartyOrGroups : Obj (list string)) (dir : Direction) :
  let analysis :=
    analyzeFieldDifferencesWithOrGroups sumsubFields counterpartyFields
      sumsubOrGroups counterpartyOrGroups dir in
  (∀ groupId value,
     (groupId, value) ∈ or_group_matches analysis →
     orGroupMatch value groupId ∈ field_matches analysis
     ∨ (value = "date_of_birth + birthplace"
        ∧ orGroupMatch "date_of_birth" groupId ∈ field_matches analysis
        ∧ orGroupMatch "birthplace" groupId ∈ field_matches analysis))
  ∧ (∀ m, m ∈ field_matches analysis →
          isOrGroupMatch m = Some true →
          ∃ groupId, orGroupId m = Some groupId
                     ∧ is_Some (Js.get (or_group_matches analysis) groupId))
  ∧ (∀ m, m ∈ field_matches analysis →
          isOrGroupMatch m = None → orGroupId m = None).
Proof.
  intros analysis. unfold analysis.
  rewrite analysis_of_finalState, step5_field_matches, step5_or_group_matches.
  destruct (resolutionsBacked_run sumsubFields counterpartyFields
              sumsubOrGroups counterpartyOrGroups) as (Hback & Hflagged & Hplain).
  split_and!; [exact Hback| |exact Hplain].
  intros m Hm Hflag. destruct (Hflagged m Hm Hflag) as (g & Hid & Hkey).
  exists g. split; [done|]. by apply get_is_Some.
Qed.

(* ================================================================== *)
(** * Further properties: fields that are mandatory on both sides      *)
(* ================================================================== *)

Lemma extends_refl st : extends st st.
Proof. by split_and!. Qed.

Lemma extends_trans st1 st2 st3 :
  extends st1 st2 → extends st2 st3 → extends st1 st3.
Proof.
  intros (Hm & Hs & Hc) (Hm' & Hs' & Hc'). split_and!; auto.
Qed.

Lemma extends_record st m : extends st (record st m).
Proof.
  split_and!; cbn [record fieldMatches matchedSumsubFields
                     matchedCounterpartyFields].
  - intros m' ?. apply elem_of_app. by left.
  - intros f ?. apply elem_of_add. by left.
  - intros f ?. apply elem_of_add. by left.
Qed.

Lemma extends_resolve st groupId value : extends st (resolve st groupId value).
Proof. by split_and!. Qed.

Lemma exactStep_extends cSet st f : extends st (exactStep cSet st f).
Proof.
  unfold exactStep. destruct (Js.has cSet f); [|apply extends_refl].
  apply (extends_record st (exactMatch f)).
Qed.

Lemma orGroupStep_extends fieldSet st entry :
  extends st (orGroupStep fieldSet st entry).
Proof.
  destruct entry as [groupId orFields].
  destruct (orGroupStep_case fieldSet st groupId orFields).
  - apply extends_refl.
  - rewrite recordOrField_resolve.
    eapply extends_trans; [apply extends_record | apply extends_resolve].
  - rewrite recordCombination_resolve.
    eapply extends_trans; [apply extends_record|].
    eapply extends_trans; [apply extends_record | apply extends_resolve].
Qed.

Lemma semanticStep_extends st m : extends st (semanticStep st m).
Proof.
  unfold semanticStep. destruct (_ && _); [|apply extends_refl].
  apply (extends_record st m).
Qed.

Lemma fold_extends {B} (step : MatchState → B → MatchState) (l : list B) st :
  (∀ st b, extends st (step st b)) → extends st (fold_left step l st).
Proof.
  intros Hstep. apply (fold_left_invariant (extends st)); [apply extends_refl|].
  intros st' b _ Hext. eapply extends_trans; [exact Hext | apply Hstep].
Qed.

Lemma finalState_extends_step1 sumsubFields counterpartyFields
  sumsubOrGroups counterpartyOrGroups :
  extends (step1 sumsubFields counterpartyFields)
          (finalState sumsubFields counterpartyFields
             sumsubOrGroups counterpartyOrGroups).
Proof.
  unfold finalState, step4, step3, step2.
  eapply extends_trans;
    [|apply (fold_extends semanticStep), semanticStep_extends].
  eapply extends_trans;
    [|apply (fold_extends (orGroupStep _)), orGroupStep_extends].
  apply (fold_extends (orGroupStep _)), orGroupStep_extends.
Qed.

(** Step 1 leaves no common field behind. *)
Lemma step1_claims_common sumsubFields counterpartyFields f :
  f ∈ sumsubFields → f ∈ counterpartyFields →
  exactMatch f ∈ fieldMatches (step1 sumsubFields counterpartyFields)
  ∧ f ∈ matchedSumsubFields (step1 sumsubFields counterpartyFields)
  ∧ f ∈ matchedCounterpartyFields (step1 sumsubFields counterpartyFields).
Proof.
  intros Hs Hc. unfold step1.
  assert (Js.has (Js.newSet counterpartyFields) f = true) as Hhas.
  { apply has_true. by rewrite elem_of_newSet. }
  revert Hhas. generalize (Js.newSet counterpartyFields) as cSet.
  generalize initialState as st. intros st cSet Hhas. revert st.
  induction sumsubFields as [|a l IH]; intros st; [by apply elem_of_nil in Hs|].
  cbn [fold_left]. apply elem_of_cons in Hs as [<- | Hs]; [|by apply IH].
  assert (exactStep cSet st f = record st (exactMatch f)) as ->.
  { unfold exactStep. by rewrite Hhas. }
  destruct (fold_extends (exactStep cSet) l (record st (exactMatch f))
              (exactStep_extends cSet)) as (Hm & HS & HC).
  split_and!.
  - apply Hm. apply elem_of_record_matches. by right.
  - apply HS. cbn [record matchedSumsubFields]. apply elem_of_add. by right.
  - apply HC. cbn [record matchedCounterpartyFields]. apply elem_of_add.
    by right.
Qed.

Lemma common_fields_claimed sumsubFields counterpartyFields
  sumsubOrGroups counterpartyOrGroups f :
  f ∈ sumsubFields → f ∈ counterpartyFields →
  let st := finalState sumsubFields counterpartyFields
              sumsubOrGroups counterpartyOrGroups in
  exactMatch f ∈ fieldMatches st
  ∧ f ∈ matchedSumsubFields st
  ∧ f ∈ matchedCounterpartyFields st.
Proof.
  intros Hs Hc st.
  destruct (step1_claims_common sumsubFields counterpartyFields f Hs Hc)
    as (? & ? & ?).
  destruct (finalState_extends_step1 sumsubFields counterpartyFields
              sumsubOrGroups counterpartyOrGroups) as (Hm & HS & HC).
  split_and!; auto.
Qed.

Lemma elem_of_unmatched l matched f :
  f ∈ unmatched l matched ↔ f ∈ l ∧ f ∉ matched.
Proof.
  unfold unmatched. rewrite list_elem_of_filter, has_false. tauto.
Qed.

(** X7: a field that is mandatory on both sides always gets an exact match
    with itself, is among the matching fields, and is never reported missing
    or extra, in either direction. *)
Theorem X7_common_fields_are_matched_exactly
  (sumsubFields counterpartyFields : list string)
  (sumsubOrGroups counterpartyOrGroups : Obj (list string)) (dir : Direction)
  (f : string) :
  f ∈ sumsubFields → f ∈ counterpartyFields →
  let analysis :=
    analyzeFieldDifferencesWithOrGroups sumsubFields counterpartyFields
      sumsubOrGroups counterpartyOrGroups dir in
  ({| sumsubField := f; counterpartyField := f; isExactMatch := true;
      isOrGroupMatch := None; orGroupId := None |}
     ∈ field_matches analysis)
  ∧ f ∈ matching_fields analysis
  ∧ (f ∉ missing_fields analysis)
  ∧ (f ∉ extra_fields analysis).
Proof.
  intros Hs Hc analysis. unfold analysis. rewrite analysis_of_finalState.
  destruct (common_fields_claimed sumsubFields counterpartyFields
              sumsubOrGroups counterpartyOrGroups f Hs Hc) as (Hm & HS & HC).
  rewrite step5_field_matches, step5_matching_fields.
  split_and!; [done | done | |]; destruct dir; cbn;
    rewrite elem_of_unmatched; tauto.
Qed.

(** X7 on Germany's and the EU's below-threshold fields: [wallet_address] is
    mandatory on both sides. *)
Lemma X7_common_fields_witness :
  exactMatch "wallet_address"
    ∈ field_matches
        (analyzeFieldDifferencesWithOrGroups
           ["full_name"; "residential_address"; "wallet_address"]
           ["full_name"; "wallet_address"; "customer_id"]
           [("or_group_0", deuAlternativeIdentification)] [] OUT)
  ∧ "wallet_address"
      ∉ extra_fields
          (analyzeFieldDifferencesWithOrGroups
             ["full_name"; "residential_address"; "wallet_address"]
             ["full_name"; "wallet_address"; "customer_id"]
             [("or_group_0", deuAlternativeIdentification)] [] OUT).
Proof.
  destruct (X7_common_fields_are_matched_exactly
              ["full_name"; "residential_address"; "wallet_address"]
              ["full_name"; "wallet_address"; "customer_id"]
              [("or_group_0", deuAlternativeIdentification)] [] OUT
              "wallet_address")
    as (Hm & _ & _ & Hextra); [list_membership | list_membership |].
  split; [exact Hm | exact Hextra].
Defined.

(** X8: the missing and extra fields are one-sided.  Outbound, every missing
    field is mandatory for the counterparty and not for the sumsub side, and
    every extra field is mandatory for the sumsub side and not for the
    counterparty; inbound the two lists change roles.  No returned match
    mentions a missing or extra field on its own side. *)
Theorem X8_missing_and_extra_fields_are_one_sided
  (sumsubFields counterpartyFields : list string)
  (sumsubOrGroups counterpartyOrGroups : Obj (list string)) :
  let outbound :=
    analyzeFieldDifferencesWithOrGroups sumsubFields counterpartyFields
      sumsubOrGroups counterpartyOrGroups OUT in
  let inbound :=
    analyzeFieldDifferencesWithOrGroups sumsubFields counterpartyFields
      sumsubOrGroups counterpartyOrGroups IN in
  Forall (λ f, f ∈ counterpartyFields ∧ (f ∉ sumsubFields)
               ∧ (f ∉ counterpartyField <$> field_matches outbound))
         (missing_fields outbound)
  ∧ Forall (λ f, f ∈ sumsubFields ∧ (f ∉ counterpartyFields)
                 ∧ (f ∉ sumsubField <$> field_matches outbound))
           (extra_fields outbound)
  ∧ missing_fields inbound = extra_fields outbound
  ∧ extra_fields inbound = missing_fields outbound.
Proof.
  intros outbound inbound. unfold outbound, inbound.
  rewrite !analysis_of_finalState.
  destruct (sidesAgree_run sumsubFields counterpartyFields
              sumsubOrGroups counterpartyOrGroups) as [[HS HC] _].
  split_and!; [| |done|done]; cbn; apply Forall_forall;
    intros f [Hin Hfree]%elem_of_unmatched; split_and!; try done.
  - intros Hs. apply Hfree.
    by apply (common_fields_claimed sumsubFields counterpartyFields
                sumsubOrGroups counterpartyOrGroups f).
  - by rewrite <- HC.
  - intros Hc. apply Hfree.
    by apply (common_fields_claimed sumsubFields counterpartyFields
                sumsubOrGroups counterpartyOrGroups f).
  - by rewrite <- HS.
Qed.

Lemma steps123_matches_exact sumsubFields counterpartyFields
  sumsubOrGroups counterpartyOrGroups :
  Forall (λ m, isExactMatch m = true)
         (fieldMatches
            (step3 counterpartyFields sumsubOrGroups
               (step2 sumsubFields counterpartyOrGroups
                  (step1 sumsubFields counterpartyFields)))).
Proof.
  unfold step3, step2, step1.
  assert (∀ fieldSet st entry,
            Forall (λ m, isExactMatch m = true) (fieldMatches st) →
            Forall (λ m, isExactMatch m = true)
                   (fieldMatches (orGroupStep fieldSet st entry))) as Hstep.
  { intros fieldSet st [g fs] Hst.
    destruct (orGroupStep_case fieldSet st g fs); [done| |]; cbn;
      rewrite ?Forall_app, ?Forall_singleton; by split_and!. }
  apply fold_left_invariant; [|intros; by apply Hstep].
  apply fold_left_invariant; [|intros; by apply Hstep].
  apply fold_left_invariant; [apply Forall_nil_2|].
  intros st f _ Hst. unfold exactStep. destruct (Js.has _ f); [|done].
  cbn. rewrite Forall_app, Forall_singleton. by split.
Qed.

(** A match that step 4 appends joins two keys that are each mandatory on one
    side only. *)
Lemma inexact_matches_one_sided sumsubFields counterpartyFields
  sumsubOrGroups counterpartyOrGroups :
  Forall (λ m, isExactMatch m = false →
               sumsubField m ∈ sumsubFields
               ∧ (sumsubField m ∉ counterpartyFields)
               ∧ counterpartyField m ∈ counterpartyFields
               ∧ (counterpartyField m ∉ sumsubFields)
               ∧ sumsubField m ≠ counterpartyField m)
         (fieldMatches (finalState sumsubFields counterpartyFields
                          sumsubOrGroups counterpartyOrGroups)).
Proof.
  unfold finalState.
  set (st3 := step3 counterpartyFields sumsubOrGroups
                (step2 sumsubFields counterpartyOrGroups
                   (step1 sumsubFields counterpartyFields))).
  assert (extends (step1 sumsubFields counterpartyFields) st3) as Hext3.
  { unfold st3, step3, step2.
    eapply extends_trans;
      [|apply (fold_extends (orGroupStep _)), orGroupStep_extends].
    apply (fold_extends (orGroupStep _)), orGroupStep_extends. }
  pose proof (steps123_matches_exact sumsubFields counterpartyFields
                sumsubOrGroups counterpartyOrGroups) as Hexact.
  fold st3 in Hexact. unfold step4.
  match goal with
  | |- Forall ?Q (fieldMatches ?final) =>
      cut (extends st3 final ∧ Forall Q (fieldMatches final));
        [by intros [_ ?]|]
  end.
  apply (fold_left_invariant
           (λ st, extends st3 st
                  ∧ Forall (λ m, isExactMatch m = false →
                                 sumsubField m ∈ sumsubFields
                                 ∧ (sumsubField m ∉ counterpartyFields)
                                 ∧ counterpartyField m ∈ counterpartyFields
                                 ∧ (counterpartyField m ∉ sumsubFields)
                                 ∧ sumsubField m ≠ counterpartyField m)
                           (fieldMatches st))).
  - split; [apply extends_refl|].
    eapply Forall_impl; [exact Hexact|]. intros m Hm. congruence.
  - intros st m Hm [Hext Hall]. split.
    { eapply extends_trans; [exact Hext | apply semanticStep_extends]. }
    unfold semanticStep.
    destruct (negb (Js.has (matchedSumsubFields st) (sumsubField m))) eqn:Hs;
      [|done].
    destruct (negb (Js.has (matchedCounterpartyFields st)
                           (counterpartyField m))) eqn:Hc; [|done].
    apply negb_true_iff in Hs, Hc. apply has_false in Hs, Hc.
    cbn. rewrite Forall_app, Forall_singleton. split; [done|]. intros _.
    apply findSemanticMatches_elem in Hm as (f & alias & -> & Hf & Halias & _).
    cbn in *.
    assert (f ∉ counterpartyFields) as Hfc.
    { intros Hin. apply Hs.
      destruct (step1_claims_common sumsubFields counterpartyFields f Hf Hin)
        as (_ & ? & _).
      by apply Hext, Hext3. }
    assert (alias ∉ sumsubFields) as Has.
    { intros Hin. apply Hc.
      destruct (step1_claims_common sumsubFields counterpartyFields alias
                  Hin Halias) as (_ & _ & ?).
      by apply Hext, Hext3. }
    split_and!; try done. intros ->. done.
Qed.

(** X9: exact matching takes precedence over semantic matching.  Every
    non-exact match of the returned analysis pairs a sumsub mandatory field
    that is not mandatory for the counterparty with a counterparty mandatory
    field that is not mandatory for the sumsub side; in particular its two
    keys differ. *)
Theorem X9_exact_matching_takes_precedence
  (sumsubFields counterpartyFields : list string)
  (sumsubOrGroups counterpartyOrGroups : Obj (list string)) (dir : Direction) :
  Forall (λ m, isExactMatch m = false →
               sumsubField m ∈ sumsubFields
               ∧ (sumsubField m ∉ counterpartyFields)
               ∧ counterpartyField m ∈ counterpartyFields
               ∧ (counterpartyField m ∉ sumsubFields)
               ∧ sumsubField m ≠ counterpartyField m)
         (field_matches
            (analyzeFieldDifferencesWithOrGroups sumsubFields counterpartyFields
               sumsubOrGroups counterpartyOrGroups dir)).
Proof.
  rewrite analysis_of_finalState, step5_field_matches.
  apply inexact_matches_one_sided.
Qed.

(* ================================================================== *)
(** * Further properties: the classification                           *)
(* ================================================================== *)

Lemma every_has_false (a b : list string) :
  forallb (Js.has (Js.newSet a)) (Js.newSet b) = false
  ↔ ¬ (∀ f, f ∈ b → f ∈ a).
Proof. by rewrite <- not_true_iff_false, every_has_spec. Qed.

Lemma every_has_case (a b : list string) :
  (forallb (Js.has (Js.newSet a)) (Js.newSet b) = true
   ∧ ∀ f, f ∈ b → f ∈ a)
  ∨ (forallb (Js.has (Js.newSet a)) (Js.newSet b) = false
     ∧ ¬ (∀ f, f ∈ b → f ∈ a)).
Proof.
  destruct (forallb (Js.has (Js.newSet a)) (Js.newSet b)) eqn:Hb.
  - left. split; [done|]. by apply every_has_spec.
  - right. split; [done|]. by apply every_has_false.
Qed.

(** The classification in terms of the two inclusions and the lengths. *)
Lemma determineComplianceStatus_cases (s c : list string) (dir : Direction) :
  let covers := forallb (Js.has (Js.newSet s)) (Js.newSet c) in
  let covered := forallb (Js.has (Js.newSet c)) (Js.newSet s) in
  determineComplianceStatus s c dir
  = if covers && covered && bool_decide (length s = length c) then full_match
    else match dir with
         | OUT => if covers
                  then if bool_decide (length c < length s)
                       then overcompliance else full_match
                  else counterparty_may_request_more
         | IN => if covered
                 then if bool_decide (length s < length c)
                      then overcompliance else full_match
                 else sender_may_not_provide
         end.
Proof. reflexivity. Qed.

(** X10: which mismatch a direction can report.  Outbound, the classification
    is counterparty_may_request_more exactly when some counterparty mandatory
    field is not a sumsub mandatory field, and it is never
    sender_may_not_provide; inbound, it is sender_may_not_provide exactly
    when some sumsub mandatory field is not a counterparty mandatory field,
    and it is never counterparty_may_request_more. *)
Theorem X10_mismatch_classification_by_direction
  (sumsubFields counterpartyFields : list string) :
  (determineComplianceStatus sumsubFields counterpartyFields OUT
   = counterparty_may_request_more
   ↔ ¬ (∀ f, f ∈ counterpartyFields → f ∈ sumsubFields))
  ∧ determineComplianceStatus sumsubFields counterpartyFields OUT
    ≠ sender_may_not_provide
  ∧ (determineComplianceStatus sumsubFields counterpartyFields IN
     = sender_may_not_provide
     ↔ ¬ (∀ f, f ∈ sumsubFields → f ∈ counterpartyFields))
  ∧ determineComplianceStatus sumsubFields counterpartyFields IN
    ≠ counterparty_may_request_more.
Proof.
  rewrite !determineComplianceStatus_cases. cbv zeta.
  rewrite <- !every_has_false.
  destruct (forallb (Js.has (Js.newSet sumsubFields))
                    (Js.newSet counterpartyFields)),
           (forallb (Js.has (Js.newSet counterpartyFields))
                    (Js.newSet sumsubFields)),
           (bool_decide (length sumsubFields = length counterpartyFields)),
           (bool_decide (length counterpartyFields < length sumsubFields)),
           (bool_decide (length sumsubFields < length counterpartyFields));
    cbn; split_and!; try done; split; done.
Qed.

Lemma covers_length (a b : list string) :
  NoDup b → (∀ f, f ∈ b → f ∈ a) → (length b ≤ length a)%nat.
Proof. intros Hnd Hsub. by apply submseteq_length, NoDup_submseteq. Qed.

Lemma covers_same_length (a b : list string) :
  NoDup b → (∀ f, f ∈ b → f ∈ a) → (length a ≤ length b)%nat →
  ∀ f, f ∈ a → f ∈ b.
Proof.
  intros Hnd Hsub Hlen f Hf.
  assert (b ≡ₚ a) as Hperm.
  { apply submseteq_length_Permutation; [by apply NoDup_submseteq | done]. }
  by rewrite Hperm.
Qed.

(** On duplicate-free arrays the lengths add nothing to the inclusions. *)
Lemma determineComplianceStatus_NoDup (s c : list string) (dir : Direction) :
  NoDup s → NoDup c →
  let covers := forallb (Js.has (Js.newSet s)) (Js.newSet c) in
  let covered := forallb (Js.has (Js.newSet c)) (Js.newSet s) in
  determineComplianceStatus s c dir
  = if covers && covered then full_match
    else match dir with
         | OUT => if covers then overcompliance
                  else counterparty_may_request_more
         | IN => if covered then overcompliance else sender_may_not_provide
         end.
Proof.
  intros Hs Hc. rewrite determineComplianceStatus_cases. cbv zeta.
  pose proof (covers_length s c Hc) as Hlen1.
  pose proof (covers_length c s Hs) as Hlen2.
  pose proof (covers_same_length s c Hc) as Heq1.
  pose proof (covers_same_length c s Hs) as Heq2.
  destruct (every_has_case s c) as [[-> Hcov] | [-> Hcov]];
    destruct (every_has_case c s) as [[-> Hcovd] | [-> Hcovd]]; cbn [andb].
  - rewrite bool_decide_true; [done|].
    specialize (Hlen1 Hcov). specialize (Hlen2 Hcovd). lia.
  - destruct dir; [|done]. rewrite bool_decide_true; [done|].
    specialize (Hlen1 Hcov).
    destruct (decide (length c < length s)) as [?|Hge]; [done|].
    exfalso. apply Hcovd, Heq1; [done | lia].
  - destruct dir; [done|]. rewrite bool_decide_true; [done|].
    specialize (Hlen2 Hcovd).
    destruct (decide (length s < length c)) as [?|Hge]; [done|].
    exfalso. apply Hcov, Heq2; [done | lia].
  - by destruct dir.
Qed.

(** X11: on duplicate-free arrays, as the extractor produces them, the
    classification reads the two arrays as sets.  It is full_match, in either
    direction, exactly when the two sets are equal; outbound it is
    overcompliance exactly when the sumsub set strictly includes the
    counterparty's; inbound, exactly when the counterparty's set strictly
    includes the sumsub one. *)
Theorem X11_classification_of_duplicate_free_sets
  (sumsubFields counterpartyFields : list string) :
  NoDup sumsubFields → NoDup counterpartyFields →
  (∀ dir, determineComplianceStatus sumsubFields counterpartyFields dir
          = full_match
          ↔ (∀ f, f ∈ sumsubFields ↔ f ∈ counterpartyFields))
  ∧ (determineComplianceStatus sumsubFields counterpartyFields OUT
     = overcompliance
     ↔ (∀ f, f ∈ counterpartyFields → f ∈ sumsubFields)
       ∧ ¬ (∀ f, f ∈ sumsubFields → f ∈ counterpartyFields))
  ∧ (determineComplianceStatus sumsubFields counterpartyFields IN
     = overcompliance
     ↔ (∀ f, f ∈ sumsubFields → f ∈ counterpartyFields)
       ∧ ¬ (∀ f, f ∈ counterpartyFields → f ∈ sumsubFields)).
Proof.
  intros Hs Hc.
  pose proof (determineComplianceStatus_NoDup sumsubFields counterpartyFields)
    as Hstatus.
  assert (∀ dir, determineComplianceStatus sumsubFields counterpartyFields dir
                 = _) as Hnf by (intros dir; by apply Hstatus).
  clear Hstatus. cbv zeta in Hnf.
  destruct (every_has_case sumsubFields counterpartyFields)
    as [[Hb Hcov] | [Hb Hcov]]; rewrite Hb in Hnf; clear Hb;
    (destruct (every_has_case counterpartyFields sumsubFields)
       as [[Hb Hcovd] | [Hb Hcovd]]; rewrite Hb in Hnf; clear Hb);
    cbn [andb] in Hnf.
  - split_and!; [intros dir|..]; rewrite Hnf; split; try done.
    + intros _ f. split; auto.
    + by intros [_ ?].
    + by intros [_ ?].
  - split_and!; [intros dir|..]; rewrite Hnf.
    + split; [by destruct dir|]. intros Hsame. exfalso. apply Hcovd.
      intros f. apply Hsame.
    + done.
    + split; [done|]. by intros [? _].
  - split_and!; [intros dir|..]; rewrite Hnf.
    + split; [by destruct dir|]. intros Hsame. exfalso. apply Hcov.
      intros f. apply Hsame.
    + split; [done|]. by intros [? _].
    + done.
  - split_and!; [intros dir|..]; rewrite Hnf.
    + split; [by destruct dir|]. intros Hsame. exfalso. apply Hcov.
      intros f. apply Hsame.
    + split; [done|]. by intros [? _].
    + split; [done|]. by intros [? _].
Qed.

(** A list of keys that is written out has no duplicates. *)
Ltac distinct_keys :=
  repeat (apply NoDup_cons_2;
          [rewrite ?elem_of_cons, ?elem_of_nil; intuition discriminate|]);
  apply NoDup_nil_2.

(** X11 on two orders of the same two keys: full match. *)
Lemma X11_classification_witness :
  determineComplianceStatus ["full_name"; "customer_id"]
    ["customer_id"; "full_name"] IN = full_match.
Proof.
  assert (NoDup ["full_name"; "customer_id"]) as Hs by distinct_keys.
  assert (NoDup ["customer_id"; "full_name"]) as Hc by distinct_keys.
  destruct (X11_classification_of_duplicate_free_sets
              ["full_name"; "customer_id"] ["customer_id"; "full_name"] Hs Hc)
    as (Hfull & _ & _).
  apply Hfull. intros f. list_membership.
Defined.

(** X12: changing the parties' places and the direction at once changes the
    classification only by renaming the mismatch: what is
    counterparty_may_request_more seen from the sender is
    sender_may_not_provide seen from the receiver, and full_match and
    overcompliance stay. *)
Theorem X12_classification_under_role_swap
  (sumsubFields counterpartyFields : list string) :
  determineComplianceStatus counterpartyFields sumsubFields IN
  = mirror (determineComplianceStatus sumsubFields counterpartyFields OUT)
  ∧ determineComplianceStatus counterpartyFields sumsubFields OUT
    = mirror (determineComplianceStatus sumsubFields counterpartyFields IN).
Proof.
  rewrite !determineComplianceStatus_cases. cbv zeta.
  rewrite (bool_decide_ext (length counterpartyFields = length sumsubFields)
             (length sumsubFields = length counterpartyFields)) by done.
  destruct (forallb (Js.has (Js.newSet sumsubFields))
                    (Js.newSet counterpartyFields)),
           (forallb (Js.has (Js.newSet counterpartyFields))
                    (Js.newSet sumsubFields)),
           (bool_decide (length sumsubFields = length counterpartyFields)),
           (bool_decide (length counterpartyFields < length sumsubFields)),
           (bool_decide (length sumsubFields < length counterpartyFields));
    by cbn.
Qed.

Lemma not_mismatch_out (s c : list string) :
  determineComplianceStatus s c OUT ≠ counterparty_may_request_more →
  ∀ f, f ∈ c → f ∈ s.
Proof.
  rewrite determineComplianceStatus_cases. cbv zeta.
  destruct (every_has_case s c) as [[-> Hcov] | [-> Hcov]]; [done|].
  cbn [andb]. done.
Qed.

Lemma not_mismatch_in (s c : list string) :
  determineComplianceStatus s c IN ≠ sender_may_not_provide →
  ∀ f, f ∈ s → f ∈ c.
Proof.
  rewrite determineComplianceStatus_cases. cbv zeta.
  destruct (every_has_case c s) as [[-> Hcov] | [-> Hcov]]; [done|].
  rewrite andb_false_r. cbn. done.
Qed.

Lemma unmatched_nil l matched :
  (∀ f, f ∈ l → f ∈ matched) → unmatched l matched = [].
Proof.
  intros Hall. destruct (unmatched l matched) as [|f rest] eqn:Heq; [done|].
  assert (f ∈ unmatched l matched) as Hf by (rewrite Heq; by left).
  apply elem_of_unmatched in Hf as [Hin Hout]. by apply Hall in Hin.
Qed.

(** X13: the classification and the field analysis do not contradict each
    other on missing fields.  When the classification of a transfer is not
    the mismatch of its direction (it is full_match or overcompliance), the
    analysis for that direction reports no missing field. *)
Theorem X13_no_missing_fields_without_mismatch
  (sumsubFields counterpartyFields : list string)
  (sumsubOrGroups counterpartyOrGroups : Obj (list string)) (dir : Direction) :
  determineComplianceStatus sumsubFields counterpartyFields dir
  ≠ match dir with
    | OUT => counterparty_may_request_more
    | IN => sender_may_not_provide
    end →
  missing_fields
    (analyzeFieldDifferencesWithOrGroups sumsubFields counterpartyFields
       sumsubOrGroups counterpartyOrGroups dir) = [].
Proof.
  intros Hstatus. rewrite analysis_of_finalState.
  destruct dir; cbn; apply unmatched_nil; intros f Hf.
  - pose proof (not_mismatch_out _ _ Hstatus f Hf) as Hs.
    by apply (common_fields_claimed sumsubFields counterpartyFields
                sumsubOrGroups counterpartyOrGroups f).
  - pose proof (not_mismatch_in _ _ Hstatus f Hf) as Hc.
    by apply (common_fields_claimed sumsubFields counterpartyFields
                sumsubOrGroups counterpartyOrGroups f).
Qed.

(** X13 on the EU's above-threshold fields sent to Germany: overcompliance,
    nothing missing. *)
Lemma X13_no_missing_fields_witness :
  missing_fields
    (analyzeFieldDifferencesWithOrGroups
       ["full_name"; "id_document_number"; "date_of_birth";
        "residential_address"; "wallet_address"; "customer_id"]
       ["full_name"; "residential_address"; "wallet_address"]
       [] [("or_group_0", deuAlternativeIdentification)] OUT) = [].
Proof.
  apply (X13_no_missing_fields_without_mismatch
           ["full_name"; "id_document_number"; "date_of_birth";
            "residential_address"; "wallet_address"; "customer_id"]
           ["full_name"; "residential_address"; "wallet_address"]
           [] [("or_group_0", deuAlternativeIdentification)] OUT).
  vm_compute. discriminate.
Defined.

Lemma status_same_fields (l : list string) (dir : Direction) :
  determineComplianceStatus l l dir = full_match.
Proof.
  rewrite determineComplianceStatus_cases. cbv zeta.
  destruct (every_has_case l l) as [[-> _] | [_ Hcov]]; [|by destruct Hcov].
  by rewrite bool_decide_true.
Qed.

(** X14: a transfer within one jurisdiction.  When the origin and the
    counterparty country codes are the same code of the table, the call
    returns, both sides report the same requirements, the classification is
    full_match in either direction and at every amount, no field is missing
    or extra, and every mandatory field has an exact match with itself. *)
Theorem X14_transfer_within_one_jurisdiction
  (table : gmap string CountryConfig) (input : TransactionInput) :
  counterparty_vasp_country input = sumsub_vasp_country input →
  is_Some (table !! sumsub_vasp_country input) →
  ∃ result,
    calculateCompliance table input = Return result
    ∧ counterparty_requirements result = sumsub_requirements result
    ∧ compliance_status result = full_match
    ∧ missing_fields (field_analysis result) = []
    ∧ extra_fields (field_analysis result) = []
    ∧ Forall (λ f, exactMatch f ∈ field_matches (field_analysis result))
             (required_fields (sumsub_requirements result)).
Proof.
  intros Hsame [config Hconfig].
  assert (table !! counterparty_vasp_country input = Some config) as Hconfig'
    by by rewrite Hsame.
  destruct (calculateCompliance_configured table input _ _ Hconfig Hconfig')
    as [result Hresult].
  exists result. split; [done|].
  apply calculateCompliance_Return in Hresult as (sc & cc & Hs & Hc & ->).
  rewrite Hconfig in Hs. rewrite Hconfig' in Hc.
  injection Hs as <-. injection Hc as <-. cbv zeta.
  cbn [counterparty_requirements sumsub_requirements compliance_status
         field_analysis required_fields summarize].
  set (extracted := extractRequiredFieldsWithOrLogic _).
  assert (∀ f, f ∈ requiredFields extracted →
               exactMatch f
                 ∈ fieldMatches (finalState (requiredFields extracted)
                                   (requiredFields extracted)
                                   (orGroups extracted) (orGroups extracted))
               ∧ f ∈ matchedSumsubFields
                       (finalState (requiredFields extracted)
                          (requiredFields extracted)
                          (orGroups extracted) (orGroups extracted))
               ∧ f ∈ matchedCounterpartyFields
                       (finalState (requiredFields extracted)
                          (requiredFields extracted)
                          (orGroups extracted) (orGroups extracted)))
    as Hclaimed.
  { intros f Hf. by apply common_fields_claimed. }
  split_and!.
  - done.
  - apply status_same_fields.
  - rewrite analysis_of_finalState.
    destruct (transfer_direction input); cbn; apply unmatched_nil;
      intros f Hf; by apply Hclaimed.
  - rewrite analysis_of_finalState.
    destruct (transfer_direction input); cbn; apply unmatched_nil;
      intros f Hf; by apply Hclaimed.
  - rewrite analysis_of_finalState, step5_field_matches.
    apply Forall_forall. intros f Hf. by apply Hclaimed.
Qed.

(** X14 on the shipped table: Germany to Germany. *)
Lemma X14_within_germany_witness :
  ∃ result,
    calculateCompliance shippedCountryConfigs (transaction "DEU" "DEU" IN 250)
    = Return result
    ∧ compliance_status result = full_match
    ∧ missing_fields (field_analysis result) = []
    ∧ extra_fields (field_analysis result) = [].
Proof.
  destruct (X14_transfer_within_one_jurisdiction shippedCountryConfigs
              (transaction "DEU" "DEU" IN 250) eq_refl)
    as (result & Hresult & _ & Hstatus & Hmissing & Hextra & _).
  - by exists configDEU.
  - exists result. by split_and!.
Defined.

(* ================================================================== *)
(** * Further properties: the equivalence table                        *)
(* ================================================================== *)

(** The table lists every alias pair in both directions. *)
Lemma semanticMappings_symmetric (f alias : string) :
  alias ∈ default [] (semanticMappings !! f) →
  f ∈ default [] (semanticMappings !! alias).
Proof.
  assert (map_Forall
            (λ f aliases,
               Forall (λ alias, f ∈ default [] (semanticMappings !! alias))
                      aliases)
            semanticMappings) as Htable.
  { apply (bool_decide_unpack _). vm_compute. exact I. }
  destruct (semanticMappings !! f) as [aliases|] eqn:Hf; cbn.
  - intros Halias. pose proof (Htable f aliases Hf) as Hall.
    rewrite Forall_forall in Hall. by apply Hall.
  - by intros ?%elem_of_nil.
Qed.

(** X15: semantic matching does not depend on which party is asked.  The
    candidate pairs found from the sumsub side to the counterparty side are
    the candidate pairs found the other way round, reversed. *)
Theorem X15_semantic_candidates_are_symmetric
  (sumsubFields counterpartyFields : list string) (f alias : string) :
  semanticMatch f alias ∈ findSemanticMatches sumsubFields counterpartyFields
  ↔ semanticMatch alias f ∈ findSemanticMatches counterpartyFields sumsubFields.
Proof.
  rewrite !findSemanticMatches_elem. split.
  - intros (f' & alias' & [= -> ->] & Hf & Halias & Htable).
    exists alias', f'. split_and!; try done.
    by apply semanticMappings_symmetric.
  - intros (f' & alias' & [= -> ->] & Hf & Halias & Htable).
    exists alias', f'. split_and!; try done.
    by apply semanticMappings_symmetric.
Qed.

(* ================================================================== *)
(** * Further properties: one-to-one matching and the combination rule *)
(* ================================================================== *)

(** X16: without a DEU-style four-field group on either side, and for a
    duplicate-free sumsub array, the returned matching is one-to-one: no key
    stands on the sumsub side of two matches, and none on the counterparty
    side of two. *)
Theorem X16_matching_is_one_to_one_without_deu_group
  (sumsubFields counterpartyFields : list string)
  (sumsubOrGroups counterpartyOrGroups : Obj (list string)) (dir : Direction) :
  NoDup sumsubFields →
  (∀ groupId orFields,
     (groupId, orFields) ∈ sumsubOrGroups
     ∨ (groupId, orFields) ∈ counterpartyOrGroups →
     isDeuOrGroup orFields = false) →
  NoDup (sumsubField
           <$> field_matches
                 (analyzeFieldDifferencesWithOrGroups sumsubFields
                    counterpartyFields sumsubOrGroups counterpartyOrGroups dir))
  ∧ NoDup (counterpartyField
             <$> field_matches
                   (analyzeFieldDifferencesWithOrGroups sumsubFields
                      counterpartyFields sumsubOrGroups counterpartyOrGroups
                      dir)).
Proof.
  intros Hnd Hnodeu.
  by apply (matching_oneToOne_without_combination sumsubFields
              counterpartyFields sumsubOrGroups counterpartyOrGroups dir).
Qed.

(** X16 on a run with an OR-group and a semantic match. *)
Lemma X16_one_to_one_witness :
  NoDup (sumsubField
           <$> field_matches
                 (analyzeFieldDifferencesWithOrGroups
                    ["full_name"; "customer_id"; "wallet_address"]
                    ["company_name"; "wallet_address"]
                    [] [("or_group_0", ["customer_id"; "nationality"])] OUT)).
Proof.
  apply (X16_matching_is_one_to_one_without_deu_group
           ["full_name"; "customer_id"; "wallet_address"]
           ["company_name"; "wallet_address"]
           [] [("or_group_0", ["customer_id"; "nationality"])] OUT).
  - distinct_keys.
  - intros groupId orFields [[]%elem_of_nil | [= _ ->]%list_elem_of_singleton].
    reflexivity.
Defined.

Lemma not_NoDup_app {A} (l l' : list A) : ¬ NoDup l → ¬ NoDup (l ++ l').
Proof. intros Hl Hnd. by apply NoDup_app in Hnd as [? _]. Qed.

Lemma combination_breaks_one_to_one sumsubFields counterpartyFields
  sumsubOrGroups counterpartyOrGroups :
  (∀ groupId orFields,
     (groupId, orFields) ∈ sumsubOrGroups
     ∨ (groupId, orFields) ∈ counterpartyOrGroups →
     compositeLabel ∉ orFields) →
  let st := finalState sumsubFields counterpartyFields
              sumsubOrGroups counterpartyOrGroups in
  (∃ groupId, (groupId, compositeLabel) ∈ orGroupMatches st) →
  ¬ NoDup (sumsubField <$> fieldMatches st).
Proof.
  intros Hlabel st.
  cut (sidesAgree st
       ∧ ((∃ groupId, (groupId, compositeLabel) ∈ orGroupMatches st) →
          ¬ NoDup (sumsubField <$> fieldMatches st))); [by intros [_ ?]|].
  unfold st.
  apply (run_invariant
           (λ st, sidesAgree st
                  ∧ ((∃ groupId, (groupId, compositeLabel) ∈ orGroupMatches st) →
                     ¬ NoDup (sumsubField <$> fieldMatches st)))).
  - split.
    + split; intros f; cbn; by rewrite !elem_of_nil.
    + intros [g Hg]. by apply elem_of_nil in Hg.
  - intros st' f [Hagree HP] _ _. split; [by apply sidesAgree_record|].
    intros Hrec. cbn. rewrite fmap_app. by apply not_NoDup_app, HP.
  - intros st' g fs f [Hagree HP] Hside Hf _. split.
    + by apply (sidesAgree_record st').
    + intros [g' Hrec]. cbn in Hrec. cbn. rewrite fmap_app.
      apply not_NoDup_app, HP.
      apply elem_of_assign in Hrec as [Hold | [= -> Heq]]; [by exists g'|].
      exfalso. apply (Hlabel g fs); [tauto | by rewrite Heq].
  - intros st' g fs [Hagree HP] _ _ Hd _. split.
    + by apply (sidesAgree_record (record st' _)), sidesAgree_record.
    + intros _. cbn. rewrite !fmap_app. cbn.
      apply not_NoDup_app. intros Hnd.
      apply NoDup_app in Hnd as (_ & Hdisjoint & _).
      apply (Hdisjoint "date_of_birth"); [by apply Hagree | by left].
  - intros st' m [Hagree HP] _ _ _. split; [by apply sidesAgree_record|].
    intros Hrec. cbn. rewrite fmap_app. by apply not_NoDup_app, HP.
Qed.

(** X17: whenever the returned record resolves a group to the composite label
    "date_of_birth + birthplace" (no OR-group listing that label as a field
    key), the returned matching is not one-to-one: the combination rule only
    runs after the single-field scan has found date_of_birth and birthplace
    already claimed, and then matches them again. *)
Theorem X17_combination_resolution_repeats_matches
  (sumsubFields counterpartyFields : list string)
  (sumsubOrGroups counterpartyOrGroups : Obj (list string)) (dir : Direction)
  (groupId : string) :
  (∀ g orFields,
     (g, orFields) ∈ sumsubOrGroups ∨ (g, orFields) ∈ counterpartyOrGroups →
     "date_of_birth + birthplace" ∉ orFields) →
  (groupId, "date_of_birth + birthplace")
    ∈ or_group_matches
        (analyzeFieldDifferencesWithOrGroups sumsubFields counterpartyFields
           sumsubOrGroups counterpartyOrGroups dir) →
  ¬ NoDup (sumsubField
             <$> field_matches
                   (analyzeFieldDifferencesWithOrGroups sumsubFields
                      counterpartyFields sumsubOrGroups counterpartyOrGroups
                      dir)).
Proof.
  rewrite analysis_of_finalState, step5_field_matches, step5_or_group_matches.
  intros Hlabel Hrec.
  apply (combination_breaks_one_to_one sumsubFields counterpartyFields
           sumsubOrGroups counterpartyOrGroups Hlabel).
  by exists groupId.
Qed.

(** X17 on a transfer in which both sides mandate date and place of birth
    and the counterparty offers the alternative-identification group. *)
Lemma X17_combination_witness :
  ¬ NoDup (sumsubField
             <$> field_matches
                   (analyzeFieldDifferencesWithOrGroups
                      ["date_of_birth"; "birthplace"]
                      ["date_of_birth"; "birthplace"]
                      [] [("or_group_0", deuAlternativeIdentification)] OUT)).
Proof.
  apply (X17_combination_resolution_repeats_matches
           ["date_of_birth"; "birthplace"] ["date_of_birth"; "birthplace"]
           [] [("or_group_0", deuAlternativeIdentification)] OUT "or_group_0").
  - intros g orFields [[]%elem_of_nil | [= _ ->]%list_elem_of_singleton].
    unfold deuAlternativeIdentification.
    rewrite !elem_of_cons, elem_of_nil. intuition discriminate.
  - vm_compute. by left.
Defined.

(* ================================================================== *)
(** * Further properties: step 2 and the identifiers of a result       *)
(* ================================================================== *)

Lemma get_None_fresh {V} (o : Obj V) k : k ∉ o.*1 → Js.get o k = None.
Proof.
  induction o as [|[k0 v0] o IH]; [done|].
  rewrite fmap_cons, not_elem_of_cons. intros [Hne Hout]. cbn.
  rewrite decide_False by done. by apply IH.
Qed.

Lemma orGroupStep_keys fieldSet st groupId orFields k :
  k ∈ (orGroupMatches (orGroupStep fieldSet st (groupId, orFields))).*1 →
  k ∈ (orGroupMatches st).*1 ∨ k = groupId.
Proof.
  destruct (orGroupStep_case fieldSet st groupId orFields); [by left|..];
    cbn; by rewrite assign_keeps_keys.
Qed.

Lemma orGroups_keys fieldSet (groups : Obj (list string)) st k :
  k ∈ (orGroupMatches (fold_left (orGroupStep fieldSet) groups st)).*1 →
  k ∈ (orGroupMatches st).*1 ∨ k ∈ groups.*1.
Proof.
  apply (fold_left_invariant
           (λ st', k ∈ (orGroupMatches st').*1 →
                   k ∈ (orGroupMatches st).*1 ∨ k ∈ groups.*1)); [by left|].
  intros st' [g fs] Hin IH [Hold | ->]%orGroupStep_keys; [by apply IH|].
  right. apply list_elem_of_fmap. by exists (g, fs).
Qed.

Lemma step1_orGroupMatches sumsubFields counterpartyFields :
  orGroupMatches (step1 sumsubFields counterpartyFields) = [].
Proof.
  unfold step1. apply (fold_left_invariant (λ st, orGroupMatches st = []));
    [done|].
  intros st f _ Hst. unfold exactStep. by destruct (Js.has _ f).
Qed.

(** X18: step 2 never skips a group of a counterparty table whose identifiers
    are distinct, and it resolves the group by the first field of its declared
    list that is in the sumsub mandatory set and not yet claimed: it appends
    an exact, alternative-flagged match for that field, claims the field on
    both sides and records the field key as the group's resolution; the match
    is part of the returned analysis. *)
Theorem X18_step2_first_free_field
  (sumsubFields counterpartyFields : list string)
  (sumsubOrGroups counterpartyOrGroups : Obj (list string))
  (dir : Direction)
  (before after : Obj (list string)) (groupId : string)
  (orFields : list string) (orField : string) :
  counterpartyOrGroups = before ++ (groupId, orFields) :: after →
  NoDup counterpartyOrGroups.*1 →
  let st := step2 sumsubFields before
              (step1 sumsubFields counterpartyFields) in
  List.find (λ f, Js.includes sumsubFields f
                  && negb (Js.has (matchedSumsubFields st) f))
            orFields = Some orField →
  step2 sumsubFields (before ++ [(groupId, orFields)])
    (step1 sumsubFields counterpartyFields)
  = {| fieldMatches :=
         fieldMatches st
         ++ [{| sumsubField := orField;
                counterpartyField := orField;
                isExactMatch := true;
                isOrGroupMatch := Some true;
                orGroupId := Some groupId |}];
       matchedSumsubFields := Js.add (matchedSumsubFields st) orField;
       matchedCounterpartyFields := Js.add (matchedCounterpartyFields st) orField;
       orGroupMatches := Js.set (orGroupMatches st) groupId orField |}
  ∧ orGroupMatch orField groupId
      ∈ field_matches
          (analyzeFieldDifferencesWithOrGroups sumsubFields counterpartyFields
             sumsubOrGroups counterpartyOrGroups dir).
Proof.
  intros Hsplit Hnd st Hfind.
  assert (Js.truthy (Js.get (orGroupMatches st) groupId) = false) as Hskip.
  { rewrite get_None_fresh; [done|]. intros Hkey.
    apply orGroups_keys in Hkey as [Hkey | Hkey].
    - rewrite step1_orGroupMatches in Hkey. by apply elem_of_nil in Hkey.
    - rewrite Hsplit, fmap_app, fmap_cons in Hnd.
      apply NoDup_app in Hnd as (_ & Hdisjoint & _).
      apply (Hdisjoint groupId Hkey). by left. }
  assert (step2 sumsubFields (before ++ [(groupId, orFields)])
            (step1 sumsubFields counterpartyFields)
          = recordOrField st groupId orField) as Hstep.
  { unfold step2. rewrite fold_left_snoc.
    apply orGroupStep_single; [done|].
    rewrite <- Hfind. apply find_ext_eq. intros f. unfold eligible. f_equal.
    apply bool_decide_ext, elem_of_newSet. }
  split; [by rewrite Hstep|].
  rewrite analysis_of_finalState, step5_field_matches.
  unfold finalState.
  apply step4_keeps_matches, orGroups_keep_matches.
  rewrite Hsplit, (cons_middle _ before after), app_assoc.
  unfold step2 at 1. rewrite fold_left_app. apply orGroups_keep_matches.
  fold (step2 sumsubFields (before ++ [(groupId, orFields)])
          (step1 sumsubFields counterpartyFields)).
  rewrite Hstep. cbn. rewrite elem_of_app, list_elem_of_singleton. by right.
Qed.

(** X18 on the EU's above-threshold fields against Germany's group:
    [id_document_number] comes first in the group and is taken, although
    [customer_id] and [date_of_birth] are free as well. *)
Lemma X18_step2_witness :
  step2 ["full_name"; "id_document_number"; "date_of_birth"; "customer_id"]
    ([] ++ [("or_group_0", deuAlternativeIdentification)])
    (step1 ["full_name"; "id_document_number"; "date_of_birth"; "customer_id"]
           ["full_name"])
  = {| fieldMatches :=
         [exactMatch "full_name";
          orGroupMatch "id_document_number" "or_group_0"];
       matchedSumsubFields := ["full_name"; "id_document_number"];
       matchedCounterpartyFields := ["full_name"; "id_document_number"];
       orGroupMatches := [("or_group_0", "id_document_number")] |}.
Proof.
  apply (X18_step2_first_free_field
           ["full_name"; "id_document_number"; "date_of_birth"; "customer_id"]
           ["full_name"] [] [("or_group_0", deuAlternativeIdentification)] OUT
           [] [] "or_group_0" deuAlternativeIdentification
           "id_document_number").
  - reflexivity.
  - distinct_keys.
  - reflexivity.
Defined.

Lemma resolution_keys_run sumsubFields counterpartyFields
  sumsubOrGroups counterpartyOrGroups k :
  k ∈ (orGroupMatches (finalState sumsubFields counterpartyFields
                         sumsubOrGroups counterpartyOrGroups)).*1 →
  k ∈ sumsubOrGroups.*1 ∨ k ∈ counterpartyOrGroups.*1.
Proof.
  unfold finalState. rewrite step4_orGroupMatches. unfold step3, step2.
  intros [[Hkey | Hkey]%orGroups_keys | Hkey]%orGroups_keys; [|by right|by left].
  rewrite step1_orGroupMatches in Hkey. by apply elem_of_nil in Hkey.
Qed.

Lemma extracted_keys groups k :
  k ∈ (orGroups (extractRequiredFieldsWithOrLogic groups)).*1 →
  ∃ i : nat, k = groupIdOf i ∧ (i < length (orGroupsOf groups))%nat.
Proof.
  rewrite extract_refines. cbn [orGroups]. rewrite numberOrGroups_imap.
  intros ([k' fs] & -> & Hin)%list_elem_of_fmap.
  apply elem_of_lookup_imap in Hin as (i & g & [= -> ->] & Hi).
  exists i. split; [done|]. by apply lookup_lt_Some in Hi.
Qed.

(** X19: every identifier under which a returned result records a resolution
    is [or_group_<i>] for a position [i] at which the sumsub side's rule set
    or the counterparty's rule set has an OR group. *)
Theorem X19_resolution_identifiers_of_a_result
  (table : gmap string CountryConfig) (input : TransactionInput)
  (result : ComplianceResult) (groupId value : string) :
  calculateCompliance table input = Return result →
  (groupId, value) ∈ or_group_matches (field_analysis result) →
  ∃ i : nat,
    groupId = "or_group_" +:+ Js.numberToString i
    ∧ ((i < length (filter (λ group, logic group = OR)
                      (requirement_groups (sumsub_requirements result))))%nat
       ∨ (i < length (filter (λ group, logic group = OR)
                        (requirement_groups
                           (counterparty_requirements result))))%nat).
Proof.
  intros (sc & cc & _ & _ & ->)%calculateCompliance_Return Hin.
  cbv zeta in Hin.
  cbn [field_analysis sumsub_requirements counterparty_requirements
         requirement_groups summarize] in *.
  rewrite analysis_of_finalState, step5_or_group_matches in Hin.
  assert (groupId ∈ (orGroupMatches
                       (finalState
                          (requiredFields
                             (extractRequiredFieldsWithOrLogic
                                (requirements
                                   (selectedTier sc (customer_type input)
                                      (transfer_amount input)))))
                          (requiredFields
                             (extractRequiredFieldsWithOrLogic
                                (requirements
                                   (selectedTier cc (customer_type input)
                                      (transfer_amount input)))))
                          (orGroups
                             (extractRequiredFieldsWithOrLogic
                                (requirements
                                   (selectedTier sc (customer_type input)
                                      (transfer_amount input)))))
                          (orGroups
                             (extractRequiredFieldsWithOrLogic
                                (requirements
                                   (selectedTier cc (customer_type input)
                                      (transfer_amount input))))))).*1)
    as Hkey.
  { apply list_elem_of_fmap. by exists (groupId, value). }
  apply resolution_keys_run in Hkey as [Hkey | Hkey];
    apply extracted_keys in Hkey as (i & -> & Hi); exists i;
    (split; [done|]); [by left | by right].
Qed.

(** X19 on a run from the EU to Germany: the one resolution is recorded
    under [or_group_0], and Germany's rule set has an OR group at position
    0. *)
Lemma X19_identifiers_witness :
  ∃ result,
    calculateCompliance shippedCountryConfigs (transaction "EU" "DEU" OUT 500)
    = Return result
    ∧ ∃ i : nat,
        "or_group_0" = "or_group_" +:+ Js.numberToString i
        ∧ ((i < length (filter (λ group, logic group = OR)
                          (requirement_groups (sumsub_requirements result))))%nat
           ∨ (i < length (filter (λ group, logic group = OR)
                            (requirement_groups
                               (counterparty_requirements result))))%nat).
Proof.
  eexists. split; [reflexivity|].
  apply (X19_resolution_identifiers_of_a_result shippedCountryConfigs
           (transaction "EU" "DEU" OUT 500) _ "or_group_0" "customer_id"
           eq_refl).
  cbn. by left.
Defined.

(* ================================================================== *)
(** * Further properties: the badges of the calculator component       *)
(* ================================================================== *)

(** The two keys of a returned match are equal, or each is mandatory on its
    own side only. *)
Lemma match_sides sumsubFields counterpartyFields
  sumsubOrGroups counterpartyOrGroups m :
  m ∈ fieldMatches (finalState sumsubFields counterpartyFields
                      sumsubOrGroups counterpartyOrGroups) →
  sumsubField m = counterpartyField m
  ∨ ((sumsubField m ∉ counterpartyFields)
     ∧ (counterpartyField m ∉ sumsubFields)).
Proof.
  intros Hm.
  pose proof (inexact_matches_one_sided sumsubFields counterpartyFields
                sumsubOrGroups counterpartyOrGroups) as Hone.
  pose proof (justified_run sumsubFields counterpartyFields
                sumsubOrGroups counterpartyOrGroups) as Hjust.
  rewrite Forall_forall in Hone, Hjust.
  destruct (Hjust m Hm); [by left..|].
  right. by destruct (Hone _ Hm eq_refl) as (_ & ? & _ & ? & _).
Qed.

Lemma find_mentions_None field (matches : list FieldMatch) :
  List.find (mentions field) matches = None ↔
  (field ∉ sumsubField <$> matches) ∧ (field ∉ counterpartyField <$> matches).
Proof.
  induction matches as [|m matches IH]; cbn [List.find fmap list_fmap].
  - split; [|done]. intros _. split; apply not_elem_of_nil.
  - rewrite !not_elem_of_cons. unfold mentions at 1.
    destruct (bool_decide_reflect (sumsubField m = field)) as [Hs|Hs];
      cbn [orb]; [split; [done|]; intros [[? _] _]; congruence|].
    destruct (bool_decide_reflect (counterpartyField m = field)) as [Hc|Hc];
      [split; [done|]; intros [_ [? _]]; congruence|].
    rewrite IH. split; intros [? ?]; [|tauto].
    split; (split; [congruence|tauto]).
Qed.

Lemma find_mentions_Some field (matches : list FieldMatch) m :
  List.find (mentions field) matches = Some m →
  m ∈ matches ∧ (sumsubField m = field ∨ counterpartyField m = field).
Proof.
  intros [Hin Hm]%find_some. split; [by apply list_elem_of_In|].
  unfold mentions in Hm. apply orb_true_iff in Hm as [Hm | Hm];
    apply bool_decide_eq_true in Hm; [by left | by right].
Qed.

Lemma badge_of_sumsub_field sumsubFields counterpartyFields
  sumsubOrGroups counterpartyOrGroups field :
  field ∈ sumsubFields →
  let st := finalState sumsubFields counterpartyFields
              sumsubOrGroups counterpartyOrGroups in
  (List.find (mentions field) (fieldMatches st) = None
     ↔ field ∈ unmatched sumsubFields (matchedSumsubFields st))
  ∧ (∀ m, List.find (mentions field) (fieldMatches st) = Some m →
          m ∈ fieldMatches st ∧ sumsubField m = field).
Proof.
  intros Hfield st.
  destruct (sidesAgree_run sumsubFields counterpartyFields
              sumsubOrGroups counterpartyOrGroups) as [[HS HC] _].
  fold st in HS, HC.
  assert (∀ m, m ∈ fieldMatches st → counterpartyField m = field →
               sumsubField m = field) as Hside.
  { intros m Hm Hc.
    destruct (match_sides _ _ _ _ m Hm) as [Heq | [_ Hout]]; [congruence|].
    by rewrite Hc in Hout. }
  split.
  - rewrite find_mentions_None, elem_of_unmatched, HS. split; [tauto|].
    intros [_ Hfree]. split; [done|].
    intros (m & Hc & Hm)%list_elem_of_fmap. apply Hfree.
    apply list_elem_of_fmap. exists m. split; [|done].
    symmetry. by apply Hside.
  - intros m [Hm [Hs | Hc]]%find_mentions_Some; split; try done.
    by apply Hside.
Qed.

Lemma badge_of_counterparty_field sumsubFields counterpartyFields
  sumsubOrGroups counterpartyOrGroups field :
  field ∈ counterpartyFields →
  let st := finalState sumsubFields counterpartyFields
              sumsubOrGroups counterpartyOrGroups in
  (List.find (mentions field) (fieldMatches st) = None
     ↔ field ∈ unmatched counterpartyFields (matchedCounterpartyFields st))
  ∧ (∀ m, List.find (mentions field) (fieldMatches st) = Some m →
          m ∈ fieldMatches st ∧ counterpartyField m = field).
Proof.
  intros Hfield st.
  destruct (sidesAgree_run sumsubFields counterpartyFields
              sumsubOrGroups counterpartyOrGroups) as [[HS HC] _].
  fold st in HS, HC.
  assert (∀ m, m ∈ fieldMatches st → sumsubField m = field →
               counterpartyField m = field) as Hside.
  { intros m Hm Hs.
    destruct (match_sides _ _ _ _ m Hm) as [Heq | [Hout _]]; [congruence|].
    by rewrite Hs in Hout. }
  split.
  - rewrite find_mentions_None, elem_of_unmatched, HC. split; [tauto|].
    intros [_ Hfree]. split; [|done].
    intros (m & Hs & Hm)%list_elem_of_fmap. apply Hfree.
    apply list_elem_of_fmap. exists m. split; [|done].
    symmetry. by apply Hside.
  - intros m [Hm [Hs | Hc]]%find_mentions_Some; split; try done.
    by apply Hside.
Qed.

(** X20: the badge of a mandatory field tells whether the field was matched.
    On a returned result, for a mandatory field of the sumsub side other than
    the composite label, [getMatchCounterpart] returns [null] exactly when the
    analysis lists the field as unmatched on the sumsub side (extra outbound,
    missing inbound), and otherwise it returns the counterparty-side key of a
    returned match whose sumsub-side key is the field.  The same holds for a
    mandatory field of the counterparty with the sides exchanged. *)
Theorem X20_badge_counterpart_of_a_mandatory_field
  (table : gmap string CountryConfig) (input : TransactionInput)
  (result : ComplianceResult) (field : string) :
  calculateCompliance table input = Return result →
  field ≠ "date_of_birth + birthplace" →
  (field ∈ required_fields (sumsub_requirements result) →
     (getMatchCounterpart (Some result) field = None
        ↔ field ∈ unmatchedSumsub (transfer_direction input)
                    (field_analysis result))
     ∧ (∀ other, getMatchCounterpart (Some result) field = Some other →
          ∃ m, m ∈ field_matches (field_analysis result)
               ∧ sumsubField m = field ∧ counterpartyField m = other))
  ∧ (field ∈ required_fields (counterparty_requirements result) →
     (getMatchCounterpart (Some result) field = None
        ↔ field ∈ unmatchedCounterparty (transfer_direction input)
                    (field_analysis result))
     ∧ (∀ other, getMatchCounterpart (Some result) field = Some other →
          ∃ m, m ∈ field_matches (field_analysis result)
               ∧ counterpartyField m = field ∧ sumsubField m = other)).
Proof.
  intros (sc & cc & _ & _ & ->)%calculateCompliance_Return Hlabel.
  cbv zeta.
  cbn [field_analysis sumsub_requirements counterparty_requirements
         required_fields summarize getMatchCounterpart].
  rewrite (bool_decide_eq_false_2 _ Hlabel).
  rewrite analysis_of_finalState, step5_field_matches.
  set (sumsubFields := requiredFields (extractRequiredFieldsWithOrLogic _)).
  set (counterpartyFields :=
         requiredFields (extractRequiredFieldsWithOrLogic _)).
  set (sumsubOrGroups := orGroups (extractRequiredFieldsWithOrLogic _)).
  set (counterpartyOrGroups := orGroups (extractRequiredFieldsWithOrLogic _)).
  set (st := finalState _ _ _ _).
  split; intros Hfield.
  - destruct (badge_of_sumsub_field sumsubFields counterpartyFields
                sumsubOrGroups counterpartyOrGroups field Hfield)
      as [Hnone Hsome].
    fold st in Hnone, Hsome. split.
    + transitivity (List.find (mentions field) (fieldMatches st) = None).
      { destruct (List.find _ _); [split; discriminate | done]. }
      rewrite Hnone. by destruct (transfer_direction input).
    + intros other. destruct (List.find _ _) as [m|] eqn:Hfind; [|done].
      destruct (Hsome m eq_refl) as [Hm Hs].
      rewrite (bool_decide_eq_true_2 _ Hs). intros [= <-]. by exists m.
  - destruct (badge_of_counterparty_field sumsubFields counterpartyFields
                sumsubOrGroups counterpartyOrGroups field Hfield)
      as [Hnone Hsome].
    fold st in Hnone, Hsome. split.
    + transitivity (List.find (mentions field) (fieldMatches st) = None).
      { destruct (List.find _ _); [split; discriminate | done]. }
      rewrite Hnone. by destruct (transfer_direction input).
    + intros other. destruct (List.find _ _) as [m|] eqn:Hfind; [|done].
      destruct (Hsome m eq_refl) as [Hm Hc].
      destruct (bool_decide_reflect (sumsubField m = field)) as [Hs|Hs];
        intros [= <-]; exists m; [|done].
      split_and!; [done|done|congruence].
Qed.

(** X20 on an outbound run from South Africa to Germany above both
    thresholds: [date_of_birth] is mandatory for the sumsub side and listed
    as extra, so its badge has no counterpart; [id_document_number] resolved
    Germany's group and its badge points to the same key. *)
Lemma X20_badge_witness :
  ∃ result,
    calculateCompliance shippedCountryConfigs (transaction "ZAF" "DEU" OUT 6000)
    = Return result
    ∧ (getMatchCounterpart (Some result) "date_of_birth" = None
         ↔ "date_of_birth" ∈ unmatchedSumsub OUT (field_analysis result))
    ∧ (∀ other,
         getMatchCounterpart (Some result) "id_document_number" = Some other →
         ∃ m, m ∈ field_matches (field_analysis result)
              ∧ sumsubField m = "id_document_number"
              ∧ counterpartyField m = other).
Proof.
  eexists. split; [reflexivity|]. split.
  - apply (X20_badge_counterpart_of_a_mandatory_field shippedCountryConfigs
             (transaction "ZAF" "DEU" OUT 6000) _ "date_of_birth" eq_refl);
      [done|].
    cbn. do 3 right. by left.
  - apply (X20_badge_counterpart_of_a_mandatory_field shippedCountryConfigs
             (transaction "ZAF" "DEU" OUT 6000) _ "id_document_number" eq_refl);
      [done|].
    cbn. do 2 right. by left.
Defined.

(* ================================================================== *)
(** * The repository's own tests, replayed on the embedding            *)
(* ================================================================== *)

(** [orGroupHighlighting.test.ts]: ZAF sends customer_id to DEU. *)
Example test_zaf_to_deu_highlights_customer_id :
  (λ r, (or_group_matches (field_analysis r),
         filter (λ m, isOrGroupMatch m = Some true)
                (field_matches (field_analysis r))))
    <$> run "ZAF" "DEU" OUT 5
  = Some ([("or_group_0", "customer_id")],
          [orGroupMatch "customer_id" "or_group_0"]).
Proof. reflexivity. Qed.

(** EU above its threshold sends id_document_number to DEU. *)
Example test_eu_to_deu_highlights_id_document_number :
  (λ r, or_group_matches (field_analysis r)) <$> run "EU" "DEU" OUT 1500
  = Some [("or_group_0", "id_document_number")].
Proof. reflexivity. Qed.

(** DEU to itself: threshold met at any amount, one four-field OR group,
    full match. *)
Example test_deu_to_deu :
  (λ r, (threshold_met r,
         required_fields (sumsub_requirements r),
         filter (λ g, logic g = OR)
                (requirement_groups (counterparty_requirements r)),
         compliance_status r))
    <$> run "DEU" "DEU" OUT 100
  = Some (true,
          ["full_name"; "residential_address"; "wallet_address"],
          [orGroup deuAlternativeIdentification],
          full_match).
Proof. reflexivity. Qed.

(** Inbound from ZAF to DEU. *)
Example test_deu_from_zaf_inbound :
  (λ r, (or_group_matches (field_analysis r), compliance_status r))
    <$> run "DEU" "ZAF" IN 3000
  = Some ([("or_group_0", "customer_id")], sender_may_not_provide).
Proof. reflexivity. Qed.

(** EU below its threshold to DEU. *)
Example test_eu_to_deu_below_threshold :
  (λ r, (or_group_matches (field_analysis r),
         missing_fields (field_analysis r),
         compliance_status r))
    <$> run "EU" "DEU" OUT 800
  = Some ([("or_group_0", "customer_id")],
          ["residential_address"],
          counterparty_may_request_more).
Proof. reflexivity. Qed.

(** ZAF below its threshold to DEU. *)
Example test_zaf_to_deu_kyc :
  (λ r, (summary_kyc_required (sumsub_requirements r),
         summary_kyc_required (counterparty_requirements r),
         compliance_status r))
    <$> run "ZAF" "DEU" OUT 3000
  = Some (false, true, counterparty_may_request_more).
Proof. reflexivity. Qed.

(** Inbound to EU from DEU. *)
Example test_eu_from_deu_inbound :
  (λ r, compliance_status r) <$> run "EU" "DEU" IN 800
  = Some sender_may_not_provide.
Proof. reflexivity. Qed.
